(** * QCFractal task scheduling core: TaskManager, frontier expansion,
      FireworksAdapter

    Shallow embedding of
      - qcfractal/services/service_util.py  (TaskManager, expand_ndimensional_grid)
      - qcfractal/queue/fireworks_adapter.py (FireworksAdapter)
    Python dicts are finite maps (gmap), Python sets used only for membership
    are finite sets (gset), Python ints are Z, tuples of ints are lists of Z.
    A raised exception is an explicit outcome. *)

From stdpp Require Import gmap strings pretty list fin_maps.
From Stdlib Require Import ZArith.

Open Scope string_scope.
Open Scope Z_scope.
Open Scope list_scope.

(** ** Exceptions and statements *)

(** The Python exceptions the modelled code can raise. *)
Inductive exn : Type :=
  | KeyError (msg : string)
  | NameError (name : string)
  | IndexError
  | ValidationError.

#[global] Instance exn_eq_dec : EqDecision exn.
Proof. solve_decision. Defined.

(** What a call produces: a returned value or a raised exception. *)
Inductive result (A : Type) : Type :=
  | Ok (a : A)
  | Raise (e : exn).
Arguments Ok {A} a.
Arguments Raise {A} e.

(** A statement over mutable state [S]: the state it leaves behind and the
    exception it raised, if any.  Mutations made before a raise stay. *)
Definition stmt (S : Type) : Type := S → S * option exn.

(** [continue] / falling off the end of a loop body. *)
Definition continue {S : Type} : stmt S := λ st, (st, None).

(** [for x in xs: body x] : stops at the first raise. *)
Fixpoint for_each {A S : Type} (xs : list A) (body : A → stmt S) : stmt S :=
  λ st,
    match xs with
    | [] => (st, None)
    | x :: xs' =>
        match body x st with
        | (st', None) => for_each xs' body st'
        | (st', Some e) => (st', Some e)
        end
    end.

(** ** Frontier expansion: [expand_ndimensional_grid] *)

Module Grid.

(** A grid point is a tuple of ints; a connection is [(seed, new)]. *)
Abbreviation point := (list Z) (only parsing).
Abbreviation connection := (list Z * list Z)%type (only parsing).

(** Loop state: the local set [compute] and the local list [connections]. *)
Abbreviation frontier :=
  (gset (list Z) * list (list Z * list Z))%type (only parsing).

(** Body of the innermost loop, for axis [d], origin [seed] and
    displacement [disp].  [seed[d]] raises IndexError when the tuple is too
    short. *)
Definition visit (dimensions : list Z) (complete : gset point)
    (d : nat) (seed : point) (disp : Z) : stmt frontier :=
  λ '(compute, connections),
    match seed !! d, dimensions !! d with
    | Some coord, Some bound =>
        let new_dim := coord + disp in
        (* Bound check *)
        if (new_dim >=? bound)%Z then continue (compute, connections)
        else if (new_dim <? 0)%Z then continue (compute, connections)
        else
          let new := <[d := new_dim]> seed in
          (* Push out duplicates from both new compute and complete *)
          if bool_decide (new ∈ compute) then continue (compute, connections)
          else if bool_decide (new ∈ complete) then continue (compute, connections)
          else ((compute ∪ {[new]}, connections ++ [(seed, new)]), None)
    | _, _ => ((compute, connections), Some IndexError)
    end.

(** [seeds] is the seed set in the order its [for] loop visits it. *)
Definition expand_loops (dimensions : list Z) (seeds : list point)
    (complete : gset point) : stmt frontier :=
  for_each (seq 0 (length dimensions)) (λ d,
    for_each seeds (λ seed,
      for_each [-1; 1] (λ disp,
        visit dimensions complete d seed disp))).

Definition expand_ndimensional_grid (dimensions : list Z)
    (seeds : list point) (complete : gset point) : result (list connection) :=
  match expand_loops dimensions seeds complete (∅, []) with
  | ((_, connections), None) => Ok connections
  | (_, Some e) => Raise e
  end.

End Grid.

(** *** Vocabulary of the frontier properties *)

Import Grid.

Section GridVocabulary.
Implicit Types (dimensions : list Z) (seeds : list point)
  (complete compute : gset point) (connections : list connection)
  (seed origin neighbor : point) (d : nat) (disp : Z).

(** A point of the grid: one coordinate per axis, each in
    [[0, dimensions[d])]. *)
Definition in_grid dimensions (p : point) : Prop :=
  Forall2 (λ bound coord, 0 ≤ coord < bound) dimensions p.

(** [neighbor] is [origin] moved by exactly one along exactly one axis. *)
Definition one_step origin neighbor : Prop :=
  ∃ d coord,
    origin !! d = Some coord ∧
    (neighbor !! d = Some (coord - 1) ∨ neighbor !! d = Some (coord + 1)) ∧
    length neighbor = length origin ∧
    ∀ d', d' ≠ d → neighbor !! d' = origin !! d'.

(** [complete] holds every neighbour the bound check lets through. *)
Definition exhausted dimensions seeds complete : Prop :=
  ∀ seed d coord bound disp,
    seed ∈ seeds → seed !! d = Some coord → dimensions !! d = Some bound →
    disp = -1 ∨ disp = 1 → 0 ≤ coord + disp < bound →
    (<[d := coord + disp]> seed) ∈ complete.

(** Loop invariant for the duplicate filter: [compute] is exactly the set
    of emitted neighbours, none is emitted twice, none is in [complete]. *)
Definition fresh_frontier complete (st : frontier) : Prop :=
  NoDup st.2.*2 ∧ (∀ n, n ∈ st.2.*2 ↔ n ∈ st.1) ∧ (∀ n, n ∈ st.2.*2 → n ∉ complete).

(** Invariant for soundness of the emitted pairs. *)
Definition sound_pair dimensions seeds (c : connection) : Prop :=
  c.1 ∈ seeds ∧ one_step c.1 c.2 ∧ in_grid dimensions c.2.

End GridVocabulary.

(** ** TaskManager *)

Module TaskManager.

(** A record of [get_procedures(...)["data"]] under the projection
    [{"status", "error", "hash_index"}]; [error] is the error message of
    the record's error entry, when it has one. *)
Record procedure_record : Type := {
  status : string;
  error : option string;
  hash_index : string;
}.

(** An entry of [get_queue()["data"]]: [task_error] is
    [x["error"]["error_message"]] when ["error" in x]. *)
Record queue_task : Type := { task_error : option string }.

(** The response [r] of the procedure parser's [submit_tasks]:
    [r["meta"]["errors"]] and [r["data"]["ids"]]. *)
Record submit_response : Type := {
  meta_errors : list string;
  data_ids : list string;
}.

(** The storage collaborator, reached through [self.storage_socket].
    [W] is its state; queries read it, submissions may change it. *)
Class StorageSocket (W : Type) : Type := {
  get_procedures : W → list string → list procedure_record;
  get_queue : W → list queue_task;
}.

(** The submission path, [..procedures.get_procedure_parser] and
    [..interface.models.rest_models.TaskQueuePOSTBody], over raw packets
    [P]: the packet model validates ([None]: ValidationError), the parser
    of a procedure type turns a packet into a task and answers with its
    id, or with errors. *)
Class SubmissionPath (W P : Type) : Type := {
  packet : Type;
  TaskQueuePOSTBody : P → option packet;
  get_procedure_parser : string → result (packet → W → submit_response * W);
}.

(** What a call does to the outside, in order. *)
Inductive effect : Type :=
  | Get_procedures (ids : list string)
  | Get_queue
  | Print (line : string).

(** The manager's own state. *)
Record TaskManager : Type := { required_tasks : gmap string string }.

Section Methods.
Context {W P : Type} `{!StorageSocket W, !SubmissionPath W P}.

(** [done(self)].  The loop over [task_query["data"]] that only
    [continue]s has no effect and is left out.  The dict's values are
    passed to the storage in the map's order. *)
Definition done (self : TaskManager) (w : W) : list effect * result bool :=
  if bool_decide (size (required_tasks self) = 0%nat) then ([], Ok true)
  else
    let ids := (map_to_list (required_tasks self)).*2 in
    let task_query := get_procedures w ids in
    if bool_decide (length task_query ≠ size (required_tasks self)) then
      ([Get_procedures ids], Ok false)
    else if bool_decide ("ERROR" ∈ status <$> task_query) then
      let tasks := get_queue w in
      ([Get_procedures ids; Get_queue] ++ (Print <$> omap task_error tasks),
       Raise (KeyError "All tasks did not execute successfully."))
    else ([Get_procedures ids], Ok true).

(** One turn of the loop of [submit_tasks] over [tasks.items()]; the
    state is the local dict [required_tasks] and the storage.

    On a non-empty error list the source evaluates
    ["Problem submitting task: {}.".format(errors)] to build a KeyError;
    [errors] is bound neither in the function (its names are [self],
    [procedure_type], [tasks], [procedure_parser], [required_tasks],
    [key], [packet], [r]) nor in the module, so evaluating the argument
    raises NameError and no KeyError is ever built. *)
Definition submit_one
    (procedure_parser : packet → W → submit_response * W)
    (item : string * P) : stmt (gmap string string * W) :=
  λ '(required, w),
    let '(key, raw) := item in
    match TaskQueuePOSTBody raw with
    | None => ((required, w), Some ValidationError)
    | Some pkt =>
        let '(r, w') := procedure_parser pkt w in
        if bool_decide (length (meta_errors r) ≠ 0%nat) then
          ((required, w'), Some (NameError "errors"))
        else
          match data_ids r !! 0%nat with
          | None => ((required, w'), Some IndexError)
          | Some id => ((<[key := id]> required, w'), None)
          end
    end.

(** [submit_tasks(self, procedure_type, tasks)]; [tasks] is the dict's
    [items()] in iteration order.  [self.required_tasks] is assigned only
    after the loop. *)
Definition submit_tasks (procedure_type : string) (tasks : list (string * P))
    (self : TaskManager) (w : W) : (TaskManager * W) * result bool :=
  match get_procedure_parser procedure_type with
  | Raise e => ((self, w), Raise e)
  | Ok procedure_parser =>
      match for_each tasks (submit_one procedure_parser) (∅, w) with
      | ((required, w'), None) =>
          (({| required_tasks := required |}, w'), Ok true)
      | ((_, w'), Some e) => ((self, w'), Raise e)
      end
  end.

(** One turn of the loop of [get_tasks] over [required_tasks.items()]; the
    state is the local dict [ret] and the record of storage calls.
    [get_procedures(id=id)["data"][0]] raises IndexError when the storage
    has no record for the id. *)
Definition fetch_one (w : W) (item : string * string)
    : stmt (gmap string procedure_record * list effect) :=
  λ '(ret, calls),
    let '(k, id) := item in
    match get_procedures w [id] !! 0%nat with
    | None => ((ret, calls ++ [Get_procedures [id]]), Some IndexError)
    | Some record => ((<[k := record]> ret, calls ++ [Get_procedures [id]]), None)
    end.

(** [get_tasks(self)]. *)
Definition get_tasks (self : TaskManager) (w : W)
    : list effect * result (gmap string procedure_record) :=
  match for_each (map_to_list (required_tasks self)) (fetch_one w) (∅, []) with
  | ((ret, calls), None) => (calls, Ok ret)
  | ((_, calls), Some e) => (calls, Raise e)
  end.

End Methods.

End TaskManager.

(** *** Vocabulary of the TaskManager properties *)

Section TaskManagerVocabulary.
Import TaskManager.
Context {W P : Type} `{!StorageSocket W, !SubmissionPath W P}.
Implicit Types (self : TaskManager) (w : W).

(** The ids [done] asks the storage about. *)
Definition required_ids self : list string := (map_to_list (required_tasks self)).*2.

(** [needle] occurs in [msg]. *)
Definition mentions (msg needle : string) : Prop :=
  is_Some (String.index 0 needle msg).

(** What C2 asks of a round: once a record has status ERROR, [done] raises
    an error whose message mentions the error message of every failed
    record. *)
Definition raises_with_aggregated_errors self w : Prop :=
  "ERROR" ∈ status <$> get_procedures w (required_ids self) →
  ∃ msg,
    (done self w).2 = Raise (KeyError msg) ∧
    ∀ r m, r ∈ get_procedures w (required_ids self) →
           status r = "ERROR" → error r = Some m → mentions msg m.

End TaskManagerVocabulary.

(** ** FireworksAdapter *)

Module Fireworks.

(** JSON-like payloads: a blob is a dict of atoms. *)
Inductive json : Type :=
  | JNull
  | JBool (b : bool)
  | JNum (n : Z)
  | JStr (s : string).

Abbreviation blob := (gmap string json) (only parsing).

(** [task["spec"]]: function name, positional and keyword arguments; it
    is also the content of the [fireworks.PyTask] built from it. *)
Record spec : Type := {
  function : string;
  args : list (gmap string json);
  kwargs : gmap string json;
}.

(** A task handed to the adapter; [parser] and [hooks] are carried along
    untouched. *)
Record task : Type := {
  id : string;
  task_spec : spec;
  parser : string;
  hooks : list string;
}.

(** A document of the backend's [launches] collection under the projection
    of [acquire_complete]; a field the document lacks is [None]. *)
Record stored_data : Type := {
  fw_results : option (gmap string json);
  task_args : option (list (gmap string json));
  exception_stacktrace : option string;
}.

Record launch : Type := {
  fw_id : Z;
  state : string;
  action : stored_data;
}.

(** The fireworks LaunchPad as far as the adapter uses it: the workflows
    added so far under their ids, the id the next one gets, and the
    [launches] collection. *)
Record LaunchPad : Type := {
  next_fw_id : Z;
  workflows : list (Z * spec);
  launches : list launch;
}.

(** [client.add_wf(fw)]: stores the one-firework workflow under a new id
    and returns the id mapping, of which the adapter reads the values. *)
Definition add_wf (fw : spec) (client : LaunchPad) : list Z * LaunchPad :=
  ([next_fw_id client],
   {| next_fw_id := next_fw_id client + 1;
      workflows := workflows client ++ [(next_fw_id client, fw)];
      launches := launches client |}).

(** [client.launches.find({"fw_id": {"$in": ids}, "state": {"$in": states}})]. *)
Definition launches_find (ids : list Z) (states : list string)
    (client : LaunchPad) : list launch :=
  filter (λ l, fw_id l ∈ ids ∧ state l ∈ states) (launches client).

(** The adapter: its backend client and its queue, from backend job id to
    [(tag, parser, hooks)]. *)
Record FireworksAdapter : Type := {
  client : LaunchPad;
  queue : gmap Z (string * string * list string);
}.

(** Body of the loop of [submit_tasks]; the state is the adapter and the
    local list [ret]. *)
Definition submit_task (t : task) : stmt (FireworksAdapter * list string) :=
  λ '(self, ret),
    let tag := id t in
    let '(launched, client') := add_wf (task_spec t) (client self) in
    match launched !! 0%nat with
    | None => (({| client := client'; queue := queue self |}, ret),
               Some IndexError)
    | Some job =>
        (({| client := client';
             queue := <[job := (tag, parser t, hooks t)]> (queue self) |},
          ret ++ [tag]), None)
    end.

Definition submit_tasks (tasks : list task) (self : FireworksAdapter)
    : FireworksAdapter * result (list string) :=
  match for_each tasks submit_task (self, []) with
  | ((self', ret), None) => (self', Ok ret)
  | ((self', _), Some e) => (self', Raise e)
  end.

(** Body of the loop of [acquire_complete] over the cursor; the state is
    [self.queue] and the local dict [ret].  [queue.pop] raises KeyError on
    a missing key, as do the lookups into the launch document. *)
Definition collect (tmp_data : launch)
    : stmt (gmap Z (string * string * list string)
            * gmap string (gmap string json * string * list string)) :=
  λ '(queue, ret),
    match queue !! fw_id tmp_data with
    | None => ((queue, ret), Some (KeyError (pretty (fw_id tmp_data))))
    | Some (key, parser, hooks) =>
        let queue := delete (fw_id tmp_data) queue in
        if bool_decide (state tmp_data = "COMPLETED") then
          match fw_results (action tmp_data) with
          | None => ((queue, ret), Some (KeyError "fw_results"))
          | Some results =>
              ((queue, <[key := (results, parser, hooks)]> ret), None)
          end
        else
          match task_args (action tmp_data) with
          | None => ((queue, ret), Some (KeyError "_task"))
          | Some args =>
              match args !! 0%nat with
              | None => ((queue, ret), Some IndexError)
              | Some blob =>
                  match exception_stacktrace (action tmp_data) with
                  | None => ((queue, ret), Some (KeyError "_exception"))
                  | Some msg =>
                      let blob := <["error_message" := JStr msg]> blob in
                      let blob := <["success" := JBool false]> blob in
                      ((queue, <[key := (blob, parser, hooks)]> ret), None)
                  end
              end
          end
    end.

(** The cursor of [acquire_complete]: launches of queued jobs in a
    terminal state. *)
Definition cursor (self : FireworksAdapter) : list launch :=
  launches_find (map_to_list (queue self)).*1 ["COMPLETED"; "FIZZLED"]
    (client self).

Definition acquire_complete (self : FireworksAdapter)
    : FireworksAdapter
      * result (gmap string (gmap string json * string * list string)) :=
  match for_each (cursor self) collect (queue self, ∅) with
  | ((queue', ret), None) =>
      ({| client := client self; queue := queue' |}, Ok ret)
  | ((queue', _), Some e) =>
      ({| client := client self; queue := queue' |}, Raise e)
  end.

(** [client.reset(None, require_password=False, max_reset_wo_password=int(1e8))]:
    the LaunchPad forgets every workflow and every launch and numbers its
    jobs from 1 again. *)
Definition reset (client : LaunchPad) : LaunchPad :=
  {| next_fw_id := 1; workflows := []; launches := [] |}.

(** [close(self)]: resets the backend; [self.queue] is not touched. *)
Definition close (self : FireworksAdapter) : FireworksAdapter * result bool :=
  ({| client := reset (client self); queue := queue self |}, Ok true).

End Fireworks.

(** *** Vocabulary of the adapter properties *)

Section FireworksVocabulary.
Import Fireworks.
Implicit Types (self : FireworksAdapter) (tasks : list task) (l : launch)
  (q : gmap Z (string * string * list string))
  (ret : gmap string (gmap string json * string * list string)).

(** The round-local keys of the queue's entries. *)
Definition queue_tags self : list string :=
  (λ entry, entry.2.1.1) <$> map_to_list (queue self).

(** The ids of the backend jobs a call of [submit_tasks] added. *)
Definition submitted_jobs tasks self : list Z :=
  drop (length (workflows (client self)))
       (workflows (client (submit_tasks tasks self).1)).*1.

(** What C8 asks of a call: no job it submits is recorded under a key
    that an entry of the queue already had. *)
Definition never_double_submits tasks self : Prop :=
  ∀ job tag p h,
    job ∈ submitted_jobs tasks self →
    queue (submit_tasks tasks self).1 !! job = Some (tag, p, h) →
    tag ∉ queue_tags self.

(** The result of the loop of [acquire_complete] for one launch: the
    stored results of a completed job, or the first task argument with the
    failure message added and [success] set to false. *)
Definition error_blob (blob : gmap string json) (msg : string) : gmap string json :=
  <["success" := JBool false]> (<["error_message" := JStr msg]> blob).

Definition outcome l : option (gmap string json) :=
  if bool_decide (state l = "COMPLETED") then fw_results (action l)
  else
    match task_args (action l), exception_stacktrace (action l) with
    | Some (blob :: _), Some msg => Some (error_blob blob msg)
    | _, _ => None
    end.

(** Two launches whose queue entries share a key are launches of the
    same job. *)
Definition distinct_keys q (ls : list launch) : Prop :=
  ∀ l1 l2 e1 e2,
    l1 ∈ ls → l2 ∈ ls →
    q !! fw_id l1 = Some e1 → q !! fw_id l2 = Some e2 →
    e1.1.1 = e2.1.1 → fw_id l1 = fw_id l2.

(** What C9 asks of a call. *)
Definition resolves_each_job_once self : Prop :=
  ∃ ret,
    (acquire_complete self).2 = Ok ret ∧
    (∀ l, l ∈ cursor self → queue (acquire_complete self).1 !! fw_id l = None) ∧
    size ret = length (cursor self) ∧
    ∀ l key p h blob rest msg,
      l ∈ cursor self → state l = "FIZZLED" →
      queue self !! fw_id l = Some (key, p, h) →
      task_args (action l) = Some (blob :: rest) →
      exception_stacktrace (action l) = Some msg →
      ret !! key = Some (error_blob blob msg, p, h).

(** The round-local keys of the observed launches' queue entries. *)
Definition cursor_keys self : list (option string) :=
  (λ l, (λ entry, entry.1.1) <$> queue self !! fw_id l) <$> cursor self.

End FireworksVocabulary.

(** ** Concrete collaborators for the examples *)

Module Fixtures.
Import TaskManager.

(** An in-memory storage: procedure records under their ids and the task
    queue. *)
Record memory_store : Type := {
  procedures : list (string * procedure_record);
  tasks_queue : list queue_task;
}.

#[global] Instance memory_socket : StorageSocket memory_store := {|
  get_procedures w ids := (filter (λ kv, kv.1 ∈ ids) (procedures w)).*2;
  get_queue w := tasks_queue w;
|}.

(** A submission path over packets that are program names: the empty name
    does not validate, the program [waffles_crasher] is refused with an
    error, any other packet becomes the task of the same name. *)
#[global] Instance memory_submission : SubmissionPath memory_store string := {|
  packet := string;
  TaskQueuePOSTBody raw := if bool_decide (raw = "") then None else Some raw;
  get_procedure_parser _ :=
    Ok (λ pkt w,
          if bool_decide (pkt = "waffles_crasher")
          then ({| meta_errors := ["program not available"]; data_ids := [] |}, w)
          else ({| meta_errors := []; data_ids := [pkt] |}, w));
|}.

Definition record_with (st : string) (err : option string) : procedure_record :=
  {| status := st; error := err; hash_index := "" |}.

(** One required task, still running. *)
Definition running_store : memory_store :=
  {| procedures := [("a1", record_with "RUNNING" None)]; tasks_queue := [] |}.

(** One required task that failed with message [boom]. *)
Definition failed_store : memory_store :=
  {| procedures := [("a1", record_with "ERROR" (Some "boom"))];
     tasks_queue := [ {| task_error := Some "boom" |} ] |}.

Definition one_task_round : TaskManager := {| required_tasks := {[ "0" := "a1" ]} |}.

End Fixtures.

Module FireworksFixtures.
Import Fireworks.

Definition water : spec :=
  {| function := "qcengine.compute";
     args := [ {[ "molecule" := JStr "water" ]} ];
     kwargs := ∅ |}.

Definition task_of (tag : string) : task :=
  {| id := tag; task_spec := water; parser := "single"; hooks := [] |}.

Definition completed (job : Z) : launch :=
  {| fw_id := job; state := "COMPLETED";
     action := {| fw_results := Some {[ "energy" := JNum 76 ]};
                  task_args := None; exception_stacktrace := None |} |}.

Definition fizzled (job : Z) : launch :=
  {| fw_id := job; state := "FIZZLED";
     action := {| fw_results := None;
                  task_args := Some (args water);
                  exception_stacktrace := Some "Traceback: method not found" |} |}.

Definition running (job : Z) : launch :=
  {| fw_id := job; state := "RUNNING";
     action := {| fw_results := None; task_args := None;
                  exception_stacktrace := None |} |}.

(** An adapter that has already submitted task [t1] as job 1. *)
Definition busy_adapter : FireworksAdapter :=
  {| client := {| next_fw_id := 2; workflows := [(1, water)]; launches := [] |};
     queue := {[ 1 := ("t1", "single", []) ]} |}.

(** The adapter after task [t1] was submitted twice, as jobs 1 and 2, and
    both jobs completed. *)
Definition twice_queued : FireworksAdapter :=
  {| client := {| next_fw_id := 3;
                  workflows := [(1, water); (2, water)];
                  launches := [completed 1; completed 2] |};
     queue := {[ 1 := ("t1", "single", []); 2 := ("t1", "single", []) ]} |}.

(** Three tasks queued as jobs 1, 2, 3: one completed, one failed, one
    still running. *)
Definition mixed_adapter : FireworksAdapter :=
  {| client := {| next_fw_id := 4;
                  workflows := [(1, water); (2, water); (3, water)];
                  launches := [completed 1; fizzled 2; running 3] |};
     queue := {[ 1 := ("t1", "single", []); 2 := ("t2", "single", []);
                 3 := ("t3", "single", []) ]} |}.

End FireworksFixtures.

(** *** Further vocabulary of the frontier properties *)

Section GridCandidates.
Implicit Types (dimensions : list Z) (seeds : list point)
  (complete : gset point) (n : point).

(** [n] is a candidate of the expansion: some seed moved by one along one
    axis, the moved coordinate within the axis' bound, and not in
    [complete]. *)
Definition candidate dimensions seeds complete n : Prop :=
  ∃ seed d coord bound disp,
    seed ∈ seeds ∧ seed !! d = Some coord ∧ dimensions !! d = Some bound ∧
    (disp = -1 ∨ disp = 1) ∧ 0 ≤ coord + disp < bound ∧
    n = <[d := coord + disp]> seed ∧ n ∉ complete.

(** Every seed has a coordinate for every axis. *)
Definition full_arity dimensions seeds : Prop :=
  Forall (λ seed, (length dimensions ≤ length seed)%nat) seeds.

(** The set [compute] only grows. *)
Definition grows (st st' : frontier) : Prop := st.1 ⊆ st'.1.

(** The visit of [seed] along axis [d] by [disp] has been accounted for: its
    neighbour, if within the bound and not in [complete], is in [compute]. *)
Definition covered dimensions complete (v : nat * point * Z) (st : frontier) : Prop :=
  ∀ coord bound,
    v.1.2 !! v.1.1 = Some coord → dimensions !! v.1.1 = Some bound →
    0 ≤ coord + v.2 < bound →
    (<[v.1.1 := coord + v.2]> v.1.2) ∉ complete →
    (<[v.1.1 := coord + v.2]> v.1.2) ∈ st.1.

(** What C7 asks of a call: once [complete] holds every neighbour the
    bound check lets through, the expansion returns the empty list. *)
Definition exhausted_returns_nil dimensions seeds complete : Prop :=
  exhausted dimensions seeds complete →
  expand_ndimensional_grid dimensions seeds complete = Ok [].

End GridCandidates.

(** *** Further vocabulary of the adapter properties *)

Section FireworksInvariants.
Import Fireworks.
Implicit Types (self : FireworksAdapter).

(** Every queued job has an id the backend has already given out. *)
Definition consistent self : Prop :=
  ∀ job, is_Some (queue self !! job) → job < next_fw_id (client self).

(** The queue entry recorded for a task. *)
Definition entry_of (t : task) : string * string * list string :=
  (id t, parser t, hooks t).

(** The launch document of a job that ran to completion with the given
    results. *)
Definition completed_launch (results : Z → gmap string json) (job : Z) : launch :=
  {| fw_id := job; state := "COMPLETED";
     action := {| fw_results := Some (results job);
                  task_args := None; exception_stacktrace := None |} |}.

(** The adapter once the backend has run every workflow it holds to
    completion. *)
Definition backend_completes (results : Z → gmap string json) self
    : FireworksAdapter :=
  {| client := {| next_fw_id := next_fw_id (client self);
                  workflows := workflows (client self);
                  launches := completed_launch results <$> (workflows (client self)).*1 |};
     queue := queue self |}.

End FireworksInvariants.

(** ** Server start-up: the SSL options of [server_start] *)

Module Server.

(** The value passed on as [ssl_options]: [False], [True], or the dict
    [{"crt": args["tls_cert"], "key": args["tls_key"]}]. *)
Inductive ssl_options : Type :=
  | SSL_off
  | SSL_autogenerated
  | SSL_files (crt key : option string).

(** The newline character. *)
Definition nl : string := String (Ascii.ascii_of_nat 10) EmptyString.

(** [args[x] is not None], as the summand it is in [sum(...)]. *)
Definition given (x : option string) : nat :=
  match x with Some _ => 1 | None => 0 end.

(** The block "Handle SSL" of [server_start], from [args["disable_ssl"]],
    [args["tls_key"]] and [args["tls_cert"]]; the first component is what it
    prints. *)
Definition examine_ssl (disable_ssl : bool) (tls_key tls_cert : option string)
    : list string * result ssl_options :=
  if disable_ssl then ([nl +:+ "SSL disabled."], Ok SSL_off)
  else
    let ssl_certs := sum_list (given <$> [tls_key; tls_cert]) in
    if bool_decide (ssl_certs = 0%nat) then
      ([nl +:+ "Autogenerated SSL certificates, clients must use 'verify=False' when connecting."],
       Ok SSL_autogenerated)
    else if bool_decide (ssl_certs = 2%nat) then
      ([nl +:+ "Reading SSL certificates."], Ok (SSL_files tls_cert tls_key))
    else ([], Raise (KeyError "Both tls-cert and tls-key must be passed in.")).

End Server.

(** *** Further collaborators for the examples *)

Module MoreFixtures.
Import TaskManager Fixtures.

(** Both required tasks are finished. *)
Definition complete_store : memory_store :=
  {| procedures := [("a1", record_with "COMPLETE" None);
                    ("a2", record_with "COMPLETE" None)];
     tasks_queue := [] |}.

(** The one required task of [one_task_round] is finished. *)
Definition finished_store : memory_store :=
  {| procedures := [("a1", record_with "COMPLETE" None)]; tasks_queue := [] |}.

(** A storage without records. *)
Definition empty_store : memory_store := {| procedures := []; tasks_queue := [] |}.

(** A round whose two keys were resolved to the same task. *)
Definition shared_round : TaskManager :=
  {| required_tasks := {[ "0" := "a1"; "1" := "a1" ]} |}.

(** The parser of [memory_submission]. *)
Definition memory_parser (pkt : string) (w : memory_store)
    : submit_response * memory_store :=
  if bool_decide (pkt = "waffles_crasher")
  then ({| meta_errors := ["program not available"]; data_ids := [] |}, w)
  else ({| meta_errors := []; data_ids := [pkt] |}, w).

End MoreFixtures.

Module MoreFireworksFixtures.
Import Fireworks FireworksFixtures.

(** Task [t1] queued as job 1, still running. *)
Definition waiting_adapter : FireworksAdapter :=
  {| client := {| next_fw_id := 2; workflows := [(1, water)];
                  launches := [running 1] |};
     queue := {[ 1 := ("t1", "single", []) ]} |}.

(** Task [t1] queued as job 1, for which the backend holds two completed
    launches. *)
Definition relaunched_adapter : FireworksAdapter :=
  {| client := {| next_fw_id := 2; workflows := [(1, water)];
                  launches := [completed 1; completed 1] |};
     queue := {[ 1 := ("t1", "single", []) ]} |}.

(** An adapter that has submitted nothing yet. *)
Definition idle_adapter : FireworksAdapter :=
  {| client := {| next_fw_id := 1; workflows := []; launches := [] |};
     queue := ∅ |}.

End MoreFireworksFixtures.

(** * Properties *)

(** ** Loops *)

Section ForEach.
Context {A S : Type}.
Implicit Types (xs : list A) (body : A → stmt S) (I : S → Prop).

(** Hoare-style rule for loops: an invariant [I] on the state kept by every
    iteration, and a property [E] of whatever an iteration raises, carry
    over to the whole loop. *)
Lemma for_each_post I (E : exn → Prop) xs body :
  (∀ x st, x ∈ xs → I st →
     I (body x st).1 ∧ ∀ e, (body x st).2 = Some e → E e) →
  ∀ st, I st →
    I (for_each xs body st).1 ∧ ∀ e, (for_each xs body st).2 = Some e → E e.
Proof.
  induction xs as [|x xs IH]; intros Hbody st Hst; simpl; [done|].
  destruct (Hbody x st ltac:(left) Hst) as [Hx He].
  destruct (body x st) as [st' [e|]]; simpl in *; [done|].
  apply IH; [|done]. intros y st0 Hy. apply Hbody. by right.
Qed.

(** A loop whose iterations leave the state alone and never raise is a
    no-op. *)
Lemma for_each_skip xs body st :
  (∀ x, x ∈ xs → body x st = (st, None)) →
  for_each xs body st = (st, None).
Proof.
  induction xs as [|x xs IH]; intros Hbody; simpl; [done|].
  rewrite (Hbody x) by left. apply IH. intros y Hy. apply Hbody. by right.
Qed.

End ForEach.

(** ** Frontier expansion *)

Section GridProperties.
Implicit Types (dimensions : list Z) (seeds : list point)
  (complete compute : gset point) (connections : list connection)
  (seed origin neighbor : point) (d : nat) (disp : Z).

(** The three ways one visit can end. *)
Lemma visit_cases dimensions complete d seed disp compute connections :
  let r := visit dimensions complete d seed disp (compute, connections) in
  (r = ((compute, connections), Some IndexError)
     ∧ (seed !! d = None ∨ dimensions !! d = None))
  ∨ r = ((compute, connections), None)
  ∨ ∃ coord bound,
      seed !! d = Some coord ∧ dimensions !! d = Some bound ∧
      0 ≤ coord + disp < bound ∧
      ((<[d := coord + disp]> seed) ∉ compute) ∧
      ((<[d := coord + disp]> seed) ∉ complete) ∧
      r = ((compute ∪ {[ <[d := coord + disp]> seed ]},
            connections ++ [(seed, <[d := coord + disp]> seed)]), None).
Proof.
  unfold visit; simpl.
  destruct (seed !! d) as [coord|] eqn:Hs; [|by left; split; [|left]].
  destruct (dimensions !! d) as [bound|] eqn:Hd; [|by left; split; [|right]].
  destruct (coord + disp >=? bound) eqn:Hge; [by right; left|].
  destruct (coord + disp <? 0) eqn:Hlt; [by right; left|].
  case_bool_decide as Hc; [by right; left|].
  case_bool_decide as Hk; [by right; left|].
  right; right. exists coord, bound.
  rewrite Z.geb_leb in Hge. apply Z.leb_gt in Hge. apply Z.ltb_ge in Hlt.
  repeat split; (done || lia).
Qed.

(** The loop nest inherits whatever every single visit guarantees. *)
Lemma expand_loops_post dimensions seeds complete
    (I : frontier → Prop) (E : exn → Prop) :
  (∀ d seed disp st,
     (d < length dimensions)%nat → seed ∈ seeds → disp = -1 ∨ disp = 1 →
     I st →
     I (visit dimensions complete d seed disp st).1 ∧
     ∀ e, (visit dimensions complete d seed disp st).2 = Some e → E e) →
  ∀ st, I st →
    I (expand_loops dimensions seeds complete st).1 ∧
    ∀ e, (expand_loops dimensions seeds complete st).2 = Some e → E e.
Proof.
  intros Hvisit. unfold expand_loops.
  apply for_each_post. intros d st Hd Hst.
  apply elem_of_seq in Hd as [_ Hd]; simpl in Hd.
  revert st Hst. apply for_each_post. intros seed st Hseed Hst.
  revert st Hst. apply for_each_post. intros disp st Hdisp Hst.
  apply Hvisit; [lia|done| |done].
  apply elem_of_cons in Hdisp as [->|Hdisp]; [by left|].
  apply elem_of_cons in Hdisp as [->|Hdisp]; [by right|].
  by apply elem_of_nil in Hdisp.
Qed.

Lemma visit_fresh_frontier dimensions seeds complete d seed disp st :
  (d < length dimensions)%nat → seed ∈ seeds →
  fresh_frontier complete st →
  fresh_frontier complete (visit dimensions complete d seed disp st).1 ∧
  ∀ e, (visit dimensions complete d seed disp st).2 = Some e →
       e = IndexError ∧ ∃ s, s ∈ seeds ∧ (length s < length dimensions)%nat.
Proof.
  unfold fresh_frontier.
  intros Hd Hseed Hst. destruct st as [compute connections].
  destruct (visit_cases dimensions complete d seed disp compute connections)
    as [[-> Hnone]|[->|(coord & bound & Hs & Hb & Hrange & Hc & Hk & ->)]];
    simpl.
  - split; [done|]. intros e [= <-]. split; [done|]. exists seed. split; [done|].
    destruct Hnone as [Hnone|Hnone].
    + apply lookup_ge_None in Hnone. lia.
    + apply lookup_ge_None in Hnone. lia.
  - by split.
  - split; [|done]. destruct Hst as (Hnd & Hiff & Hnk); simpl in *.
    rewrite fmap_app; simpl. repeat split.
    + apply NoDup_app. split; [done|]. split; [|apply NoDup_singleton].
      intros n Hn Hn'. apply list_elem_of_singleton in Hn' as ->.
      by apply Hc, Hiff.
    + intros [Hn|Hn]%elem_of_app.
      * apply elem_of_union_l. by apply Hiff.
      * apply elem_of_union_r. apply list_elem_of_singleton in Hn as ->.
        by apply elem_of_singleton.
    + intros [Hn|Hn]%elem_of_union; apply elem_of_app.
      * left. by apply Hiff.
      * right. apply elem_of_singleton in Hn as ->. by apply list_elem_of_singleton.
    + intros n [Hn|Hn]%elem_of_app; [by apply Hnk|].
      by apply list_elem_of_singleton in Hn as ->.
Qed.

Lemma visit_sound_pairs dimensions seeds complete d seed disp st :
  Forall (in_grid dimensions) seeds →
  seed ∈ seeds → disp = -1 ∨ disp = 1 →
  Forall (sound_pair dimensions seeds) st.2 →
  Forall (sound_pair dimensions seeds)
    (visit dimensions complete d seed disp st).1.2.
Proof.
  intros Hgrid Hseed Hdisp Hst. destruct st as [compute connections].
  destruct (visit_cases dimensions complete d seed disp compute connections)
    as [[-> _]|[->|(coord & bound & Hs & Hb & Hrange & _ & _ & ->)]];
    simpl in *; [done|done|].
  apply Forall_app. split; [done|]. apply Forall_singleton.
  pose proof (lookup_lt_Some _ _ _ Hs) as Hlen.
  unfold sound_pair; cbn [fst snd]. split; [done|]. split.
  - exists d, coord. split; [done|].
    rewrite list_lookup_insert_eq by done. split.
    + destruct Hdisp as [->| ->]; [left|right]; f_equal; lia.
    + split; [by rewrite length_insert|].
      intros d' Hne. by rewrite list_lookup_insert_ne.
  - unfold in_grid. rewrite <- (list_insert_id dimensions d bound) by done.
    apply Forall2_insert; [|done].
    rewrite Forall_forall in Hgrid. by apply Hgrid.
Qed.

End GridProperties.

(** C4.  On the 3x3 grid with the single seed (1,1) and nothing complete,
    the expansion returns exactly the four pairs ((1,1),(0,1)),
    ((1,1),(2,1)), ((1,1),(1,0)), ((1,1),(1,2)), up to order. *)
Theorem expand_center_3x3 :
  ∃ connections,
    expand_ndimensional_grid [3; 3] [[1; 1]] ∅ = Ok connections ∧
    connections ≡ₚ
      [([1; 1], [0; 1]); ([1; 1], [2; 1]); ([1; 1], [1; 0]); ([1; 1], [1; 2])].
Proof. eexists. split; [vm_compute; reflexivity|]. reflexivity. Qed.

(** C5.  Whatever the dimensions, the seeds (in any visiting order) and the
    complete set: if the expansion returns, no neighbour occurs twice in the
    returned sequence and none is a member of [complete]; the only other
    outcome is the IndexError of a seed with fewer coordinates than there are
    axes. *)
Theorem expand_no_duplicates dimensions seeds complete :
  match expand_ndimensional_grid dimensions seeds complete with
  | Ok connections =>
      NoDup connections.*2 ∧ ∀ n, n ∈ connections.*2 → n ∉ complete
  | Raise e =>
      e = IndexError ∧ ∃ s, s ∈ seeds ∧ (length s < length dimensions)%nat
  end.
Proof.
  unfold expand_ndimensional_grid.
  destruct (expand_loops_post dimensions seeds complete
              (fresh_frontier complete)
              (λ e, e = IndexError ∧
                    ∃ s, s ∈ seeds ∧ (length s < length dimensions)%nat))
    with (st := ((∅, []) : frontier)) as [HI HE].
  - intros d seed disp st Hd Hseed _ Hst. by apply visit_fresh_frontier.
  - repeat split; simpl; try apply NoDup_nil_2; set_solver.
  - destruct (expand_loops dimensions seeds complete (∅, []))
      as [[compute connections] [e|]]; simpl in *.
    + by apply HE.
    + destruct HI as (Hnd & _ & Hnk). done.
Qed.

(** C6.  When every seed is a point of the grid, the expansion returns, and
    every returned pair has its origin among the seeds and a neighbour that
    is one step of exactly one along exactly one axis away from the origin and
    is itself a point of the grid.  In particular, on the one-axis grid of
    size 2 with seed (0,) the result is the single pair ((0,),(1,)). *)
Theorem expand_pairs_sound dimensions seeds complete :
  Forall (in_grid dimensions) seeds →
  (∃ connections,
     expand_ndimensional_grid dimensions seeds complete = Ok connections ∧
     ∀ origin neighbor, (origin, neighbor) ∈ connections →
       origin ∈ seeds ∧ one_step origin neighbor ∧ in_grid dimensions neighbor)
  ∧ expand_ndimensional_grid [2] [[0]] ∅ = Ok [([0], [1])].
Proof.
  intros Hgrid. split; [|vm_compute; reflexivity].
  unfold expand_ndimensional_grid.
  destruct (expand_loops_post dimensions seeds complete
              (λ st, Forall (sound_pair dimensions seeds) st.2) (λ _, False))
    with (st := ((∅, []) : frontier)) as [HI HE].
  - intros d seed disp st Hd Hseed Hdisp Hst.
    split; [by apply visit_sound_pairs|].
    destruct st as [compute connections]. intros e.
    destruct (visit_cases dimensions complete d seed disp compute connections)
      as [[-> Hnone]|[->|(coord & bound & _ & _ & _ & _ & _ & ->)]];
      simpl; [|done|done].
    intros _. rewrite Forall_forall in Hgrid.
    pose proof (Forall2_length _ _ _ (Hgrid seed Hseed)) as Hlen.
    destruct Hnone as [Hnone|Hnone]; apply lookup_ge_None in Hnone; lia.
  - simpl. constructor.
  - destruct (expand_loops dimensions seeds complete (∅, []))
      as [[compute connections] [e|]]; simpl in *.
    + destruct (HE e eq_refl).
    + exists connections. split; [done|]. intros origin neighbor Hin.
      rewrite Forall_forall in HI. apply (HI (origin, neighbor) Hin).
Qed.

Lemma expand_pairs_sound_witness :
  (∃ connections,
     expand_ndimensional_grid [3; 3] [[1; 1]; [0; 2]] {[ [1; 2] ]}
       = Ok connections ∧
     ∀ origin neighbor, (origin, neighbor) ∈ connections →
       origin ∈ [[1; 1]; [0; 2]] ∧ one_step origin neighbor
       ∧ in_grid [3; 3] neighbor)
  ∧ expand_ndimensional_grid [2] [[0]] ∅ = Ok [([0], [1])].
Proof.
  apply (expand_pairs_sound [3; 3] [[1; 1]; [0; 2]] {[ [1; 2] ]}).
  repeat constructor; lia.
Defined.




(** ** TaskManager *)

Section TaskManagerProperties.
Import TaskManager.
Context {W P : Type} `{!StorageSocket W, !SubmissionPath W P}.
Implicit Types (self : TaskManager) (w : W).

(** A record count that differs from the number of required tasks makes
    [done] answer false. *)
Lemma done_false_on_count_mismatch self w :
  size (required_tasks self) ≠ 0%nat →
  length (get_procedures w (required_ids self)) ≠ size (required_tasks self) →
  done self w = ([Get_procedures (required_ids self)], Ok false).
Proof.
  intros Hne Hlen. unfold done, required_ids in *.
  rewrite bool_decide_eq_false_2 by done.
  by rewrite bool_decide_eq_true_2.
Qed.

(** [done] answers true exactly when the round is empty, or the record
    count matches and no record has status ERROR; the other statuses are
    not looked at. *)
Lemma done_true_iff self w :
  (done self w).2 = Ok true ↔
  size (required_tasks self) = 0%nat ∨
  (length (get_procedures w (required_ids self)) = size (required_tasks self) ∧
   "ERROR" ∉ status <$> get_procedures w (required_ids self)).
Proof.
  unfold done, required_ids.
  repeat case_bool_decide; simpl; split; try done; try tauto; try naive_solver.
Qed.

(** When every record is there and COMPLETE, [done] answers true. *)
Lemma done_true_when_all_complete self w :
  length (get_procedures w (required_ids self)) = size (required_tasks self) →
  Forall (λ r, status r = "COMPLETE") (get_procedures w (required_ids self)) →
  (done self w).2 = Ok true.
Proof.
  intros Hlen Hall. apply done_true_iff. right. split; [done|].
  intros (r & Hst & Hr)%list_elem_of_fmap.
  rewrite Forall_forall in Hall. specialize (Hall r Hr). congruence.
Qed.

(** X10.  Whatever [submit_tasks] raises (an unknown procedure type, a
    packet that does not validate, reported errors, a response without ids),
    it leaves [required_tasks] as it was. *)
Lemma submit_tasks_raise_keeps_round procedure_type (tasks : list (string * P)) self w e :
  (submit_tasks procedure_type tasks self w).2 = Raise e →
  (submit_tasks procedure_type tasks self w).1.1 = self.
Proof.
  unfold submit_tasks.
  destruct (get_procedure_parser procedure_type) as [procedure_parser|e']; [|done].
  by destruct (for_each tasks (submit_one procedure_parser) (∅, w))
    as [[required w'] [e'|]].
Qed.

End TaskManagerProperties.

Section TaskManagerClaims.
Import TaskManager.
Context {W P : Type} `{!StorageSocket W, !SubmissionPath W P}.
Implicit Types (self : TaskManager) (w : W).

(** C2 (amended).  When the storage returns as many records as there are
    required tasks and one of them has status ERROR, [done] queries the
    queue, prints the error message of every queue entry that has one, and
    raises KeyError with the fixed message "All tasks did not execute
    successfully."; the error messages are not part of what is raised. *)
Theorem done_raises_fixed_message self w :
  length (get_procedures w (required_ids self)) = size (required_tasks self) →
  "ERROR" ∈ status <$> get_procedures w (required_ids self) →
  done self w =
    ([Get_procedures (required_ids self); Get_queue]
       ++ (Print <$> omap task_error (get_queue w)),
     Raise (KeyError "All tasks did not execute successfully.")).
Proof.
  intros Hlen Herr. unfold done, required_ids in *.
  rewrite bool_decide_eq_false_2.
  - rewrite bool_decide_eq_false_2 by (intros Hne; by apply Hne).
    by rewrite bool_decide_eq_true_2.
  - intros Hz. rewrite Hz in Hlen. apply nil_length_inv in Hlen.
    rewrite Hlen in Herr. by apply elem_of_nil in Herr.
Qed.

(** C3 (the code at a failing packet).  When the submission of the first
    packet reports a non-empty error list, [submit_tasks] raises
    NameError for the unbound name [errors], not a submission error
    carrying the reported errors; [required_tasks] is left as it was. *)
Theorem submit_tasks_errors_raise_NameError
    procedure_type procedure_parser key (raw : P) pkt r w' rest self w :
  get_procedure_parser procedure_type = Ok procedure_parser →
  TaskQueuePOSTBody raw = Some pkt →
  procedure_parser pkt w = (r, w') →
  meta_errors r ≠ [] →
  submit_tasks procedure_type ((key, raw) :: rest) self w
    = ((self, w'), Raise (NameError "errors")).
Proof.
  intros Hparser Hvalid Hsubmit Herrors. unfold submit_tasks.
  rewrite Hparser. simpl. rewrite Hvalid, Hsubmit.
  rewrite bool_decide_eq_true_2; [done|].
  by destruct (meta_errors r).
Qed.

(** C10.  With an empty [required_tasks], [done] returns true and makes no
    call to the storage. *)
Theorem done_empty_round self w :
  required_tasks self = ∅ → done self w = ([], Ok true).
Proof. intros Hempty. unfold done. by rewrite Hempty, map_size_empty. Qed.

End TaskManagerClaims.

(** C1 (the code on a running task).  With one required task whose record
    the storage returns with status RUNNING, [done] returns true. *)
Theorem done_true_while_running :
  TaskManager.done Fixtures.one_task_round Fixtures.running_store
  = ([TaskManager.Get_procedures ["a1"]], Ok true).
Proof. vm_compute. reflexivity. Qed.

(** C2 fails as stated: the record failed with message [boom], and the
    message raised does not mention it. *)
Lemma done_message_omits_errors :
  ¬ raises_with_aggregated_errors Fixtures.one_task_round Fixtures.failed_store.
Proof.
  intros Hclaim. destruct Hclaim as (msg & Hraise & Hmentions).
  - vm_compute. left.
  - vm_compute in Hraise. injection Hraise as <-.
    destruct (Hmentions (Fixtures.record_with "ERROR" (Some "boom")) "boom")
      as [n Hn]; [vm_compute; left|done|done|].
    vm_compute in Hn. discriminate.
Qed.

Lemma done_raises_fixed_message_witness :
  TaskManager.done Fixtures.one_task_round Fixtures.failed_store
  = ([TaskManager.Get_procedures ["a1"]; TaskManager.Get_queue;
      TaskManager.Print "boom"],
     Raise (KeyError "All tasks did not execute successfully.")).
Proof.
  etrans.
  - apply (done_raises_fixed_message Fixtures.one_task_round Fixtures.failed_store).
    + vm_compute. reflexivity.
    + vm_compute. left.
  - vm_compute. reflexivity.
Defined.

Lemma submit_tasks_errors_raise_NameError_witness :
  TaskManager.submit_tasks "optimization"
    [("0", "waffles_crasher"); ("1", "rdkit")]
    Fixtures.one_task_round Fixtures.running_store
  = ((Fixtures.one_task_round, Fixtures.running_store),
     Raise (NameError "errors")).
Proof.
  eapply (submit_tasks_errors_raise_NameError (P := string)).
  - reflexivity.
  - reflexivity.
  - reflexivity.
  - discriminate.
Defined.

Lemma done_empty_round_witness :
  TaskManager.done {| TaskManager.required_tasks := ∅ |} Fixtures.running_store
  = ([], Ok true).
Proof. apply done_empty_round. reflexivity. Defined.

(** ** FireworksAdapter *)

Section FireworksProperties.
Import Fireworks.
Implicit Types (self : FireworksAdapter) (tasks : list task) (l : launch)
  (q : gmap Z (string * string * list string))
  (ret : gmap string (gmap string json * string * list string)).

Lemma submit_loop tasks self (acc : list string) :
  ∃ self',
    for_each tasks submit_task (self, acc)
      = ((self', acc ++ (id <$> tasks)), None) ∧
    (workflows (client self')).*2
      = (workflows (client self)).*2 ++ (task_spec <$> tasks).
Proof.
  revert self acc. induction tasks as [|t tasks IH]; intros self acc; simpl.
  - exists self. by rewrite !app_nil_r.
  - destruct (IH {| client := (add_wf (task_spec t) (client self)).2;
                    queue := <[next_fw_id (client self) :=
                                 (id t, parser t, hooks t)]> (queue self) |}
                 (acc ++ [id t])) as (self' & Hloop & Hjobs).
    simpl in Hloop, Hjobs. exists self'. split.
    + rewrite Hloop. by rewrite <- app_assoc.
    + rewrite Hjobs, fmap_app. simpl. by rewrite <- app_assoc.
Qed.

Lemma collect_step l q ret key p h b :
  q !! fw_id l = Some (key, p, h) → outcome l = Some b →
  collect l (q, ret) = ((delete (fw_id l) q, <[key := (b, p, h)]> ret), None).
Proof.
  unfold collect, outcome. intros -> Hout.
  case_bool_decide; [by rewrite Hout|].
  destruct (task_args (action l)) as [[|blob rest]|]; try done.
  destruct (exception_stacktrace (action l)); [|done].
  by injection Hout as <-.
Qed.

Lemma cursor_queued self l :
  l ∈ cursor self →
  is_Some (queue self !! fw_id l) ∧ (state l = "COMPLETED" ∨ state l = "FIZZLED").
Proof.
  unfold cursor, launches_find. intros [[Hid Hst] _]%list_elem_of_filter. split.
  - apply list_elem_of_fmap in Hid as ([i e] & -> & Hin).
    apply elem_of_map_to_list in Hin. by exists e.
  - apply elem_of_cons in Hst as [->|Hst]; [by left|].
    apply list_elem_of_singleton in Hst as ->. by right.
Qed.

(** The queue once the jobs [ids] have been popped. *)
Lemma lookup_popped q (ls : list launch) i :
  foldl (λ q l, delete (fw_id l) q) q ls !! i
  = if bool_decide (i ∈ fw_id <$> ls) then None else q !! i.
Proof.
  revert q. induction ls as [|l ls IH]; intros q.
  - by case_bool_decide as Hin; [apply elem_of_nil in Hin|].
  - cbn [foldl]. rewrite IH, fmap_cons.
    destruct (decide (i = fw_id l)) as [->|Hne].
    + rewrite lookup_delete_eq.
      rewrite (bool_decide_eq_true_2 (fw_id l ∈ fw_id l :: _)) by left.
      by destruct (bool_decide _).
    + rewrite lookup_delete_ne by done.
      rewrite (bool_decide_ext (i ∈ fw_id l :: (fw_id <$> ls)) (i ∈ fw_id <$> ls));
        [done|].
      rewrite elem_of_cons. split; [intros [Heq|Hin]; [congruence|done]|by right].
Qed.

(** The loop of [acquire_complete] over launches of distinct queued jobs
    with distinct keys not yet in [ret]: every job is popped, and [ret]
    gains one entry per job. *)
Lemma collect_loop (ls : list launch) q ret :
  NoDup (fw_id <$> ls) →
  (∀ l, l ∈ ls → is_Some (q !! fw_id l) ∧ is_Some (outcome l)) →
  distinct_keys q ls →
  (∀ l e, l ∈ ls → q !! fw_id l = Some e → ret !! e.1.1 = None) →
  ∃ ret',
    for_each ls collect (q, ret)
      = ((foldl (λ q l, delete (fw_id l) q) q ls, ret'), None) ∧
    size ret' = (size ret + length ls)%nat ∧
    (∀ k, is_Some (ret !! k) → ret' !! k = ret !! k) ∧
    ∀ l key p h b,
      l ∈ ls → q !! fw_id l = Some (key, p, h) → outcome l = Some b →
      ret' !! key = Some (b, p, h).
Proof.
  revert q ret. induction ls as [|l ls IH]; intros q ret Hnd Hwf Hkeys Hfresh.
  - exists ret. simpl. split; [done|]. split; [lia|]. split; [done|].
    intros l key p h b Hl. by apply elem_of_nil in Hl.
  - apply NoDup_cons in Hnd as [Hl Hnd].
    destruct (Hwf l ltac:(left)) as [[[[key p] h] Hq] [b Hb]].
    pose proof (Hfresh l _ ltac:(left) Hq) as Hnew; simpl in Hnew.
    assert (Hother : ∀ l', l' ∈ ls → delete (fw_id l) q !! fw_id l' = q !! fw_id l').
    { intros l' Hl'. apply lookup_delete_ne. intros Heq. apply Hl.
      rewrite Heq. apply list_elem_of_fmap. by exists l'. }
    destruct (IH (delete (fw_id l) q) (<[key := (b, p, h)]> ret))
      as (ret' & Hloop & Hsize & Hkeep & Hnewer); [done|..].
    + intros l' Hl'. rewrite Hother by done. apply Hwf. by right.
    + intros l1 l2 e1 e2 H1 H2. rewrite !Hother by done.
      apply Hkeys; by right.
    + intros l' e Hl'. rewrite Hother by done. intros He.
      rewrite lookup_insert_ne; [by apply (Hfresh l'); [right|]|].
      intros Hsame. apply Hl.
      rewrite (Hkeys l l' _ e ltac:(left) ltac:(by right) Hq He Hsame).
      apply list_elem_of_fmap. by exists l'.
    + exists ret'. cbn [for_each foldl length].
      rewrite (collect_step l q ret key p h b) by done.
      split; [done|]. split.
      { rewrite Hsize, map_size_insert_None by done. lia. }
      split.
      { intros k Hk. destruct (decide (k = key)) as [->|Hne].
        - rewrite Hnew in Hk. by destruct Hk.
        - rewrite Hkeep; rewrite lookup_insert_ne; done. }
      intros l' key' p' h' b' [->|Hl']%elem_of_cons Hq' Hb'.
      * rewrite Hq in Hq'. rewrite Hb in Hb'. simplify_eq.
        rewrite Hkeep; rewrite lookup_insert_eq; done.
      * apply (Hnewer l'); [done| |done]. by rewrite Hother.
Qed.

End FireworksProperties.

Section FireworksClaims.
Import Fireworks.
Implicit Types (self : FireworksAdapter) (tasks : list task) (l : launch).

(** C8 (amended).  [submit_tasks] submits one backend job for every task
    of the batch, in order, whatever keys the queue already holds, and
    returns the ids of all the tasks of the batch. *)
Theorem submit_tasks_submits_every_task tasks self :
  ∃ self',
    submit_tasks tasks self = (self', Ok (id <$> tasks)) ∧
    (workflows (client self')).*2
      = (workflows (client self)).*2 ++ (task_spec <$> tasks).
Proof.
  destruct (submit_loop tasks self []) as (self' & Hloop & Hjobs).
  exists self'. unfold submit_tasks. by rewrite Hloop.
Qed.

(** C9 (amended).  When the launches observed in a terminal state belong
    to queue entries with pairwise distinct round-local keys, and each
    carries the data of its state, [acquire_complete] removes every
    observed job from the queue, leaves the other entries alone, and
    returns exactly one entry per observed job, under the job's key: the
    stored results of a COMPLETED job, and for a FIZZLED job the first task
    argument with the failure message added and [success] set to false. *)
Theorem acquire_complete_distinct_keys self :
  NoDup (cursor_keys self) →
  Forall (λ l, is_Some (outcome l)) (cursor self) →
  resolves_each_job_once self ∧
  (∀ job, job ∉ fw_id <$> cursor self →
     queue (acquire_complete self).1 !! job = queue self !! job) ∧
  ∀ l key p h results,
    l ∈ cursor self → state l = "COMPLETED" →
    queue self !! fw_id l = Some (key, p, h) →
    fw_results (action l) = Some results →
    ∃ ret, (acquire_complete self).2 = Ok ret ∧ ret !! key = Some (results, p, h).
Proof.
  intros Hkeys Hwf. rewrite Forall_forall in Hwf.
  destruct (collect_loop (cursor self) (queue self) ∅)
    as (ret & Hloop & Hsize & _ & Hret).
  - apply (NoDup_fmap_1 (λ job, (λ entry, entry.1.1) <$> queue self !! job)).
    rewrite <- list_fmap_compose. exact Hkeys.
  - intros l Hl. split; [by apply cursor_queued|by apply Hwf].
  - intros l1 l2 e1 e2 H1 H2 He1 He2 Hsame.
    apply list_elem_of_lookup in H1 as [i1 Hi1].
    apply list_elem_of_lookup in H2 as [i2 Hi2].
    assert (i1 = i2) as ->; [|congruence].
    eapply (NoDup_lookup _ i1 i2 (Some e1.1.1) Hkeys); unfold cursor_keys;
      rewrite list_lookup_fmap.
    + by rewrite Hi1; simpl; rewrite He1.
    + by rewrite Hi2; simpl; rewrite He2, Hsame.
  - intros l e _ _. apply lookup_empty.
  - assert (Hcall : acquire_complete self =
              ({| client := client self;
                  queue := foldl (λ q l, delete (fw_id l) q) (queue self) (cursor self) |},
               Ok ret)).
    { unfold acquire_complete. by rewrite Hloop. }
    rewrite Hcall; simpl. split; [|split].
    + exists ret. rewrite Hcall; simpl. split; [done|]. split; [|split].
      * intros l Hl. rewrite lookup_popped, bool_decide_eq_true_2; [done|].
        apply list_elem_of_fmap. by exists l.
      * rewrite Hsize, map_size_empty. lia.
      * intros l key p h blob rest msg Hl Hst Hq Hargs Hmsg.
        apply (Hret l); [done|done|].
        unfold outcome. rewrite bool_decide_eq_false_2 by (rewrite Hst; done).
        by rewrite Hargs, Hmsg.
    + intros job Hjob. by rewrite lookup_popped, bool_decide_eq_false_2.
    + intros l key p h results Hl Hst Hq Hres. exists ret.
      split; [done|]. apply (Hret l); [done|done|].
      unfold outcome. by rewrite bool_decide_eq_true_2.
Qed.

End FireworksClaims.

(** C8 fails as stated: task [t1] is already queued as job 1, and submitting
    it again submits job 2 for it. *)
Lemma submit_tasks_double_submits :
  ¬ never_double_submits [FireworksFixtures.task_of "t1"]
      FireworksFixtures.busy_adapter.
Proof.
  intros Hclaim. apply (Hclaim 2 "t1" "single" []).
  - vm_compute. left.
  - vm_compute. reflexivity.
  - vm_compute. left.
Qed.

(** C9 fails as stated: jobs 1 and 2 both completed, both are queued under
    the key [t1], and the returned mapping has one entry for the two. *)
Lemma acquire_complete_merges_shared_key :
  ¬ resolves_each_job_once FireworksFixtures.twice_queued.
Proof.
  intros (ret & Hret & _ & Hsize & _).
  assert (Hcall : (Fireworks.acquire_complete FireworksFixtures.twice_queued).2
                  = Ok {[ "t1" := ({[ "energy" := Fireworks.JNum 76 ]}, "single", []) ]}).
  { vm_compute. reflexivity. }
  rewrite Hcall in Hret. injection Hret as <-.
  vm_compute in Hsize. discriminate.
Qed.

Lemma acquire_complete_distinct_keys_witness :
  resolves_each_job_once FireworksFixtures.mixed_adapter.
Proof.
  apply (acquire_complete_distinct_keys FireworksFixtures.mixed_adapter).
  - apply (bool_decide_unpack _). vm_compute. exact I.
  - apply (bool_decide_unpack _). vm_compute. exact I.
Defined.

(** ** Runs of the model on the fixtures *)

Example acquire_complete_mixed :
  Fireworks.acquire_complete FireworksFixtures.mixed_adapter
  = ({| Fireworks.client := Fireworks.client FireworksFixtures.mixed_adapter;
        Fireworks.queue := {[ 3 := ("t3", "single", []) ]} |},
     Ok {[ "t1" := ({[ "energy" := Fireworks.JNum 76 ]}, "single", []);
           "t2" := ({[ "molecule" := Fireworks.JStr "water";
                       "error_message" := Fireworks.JStr "Traceback: method not found";
                       "success" := Fireworks.JBool false ]}, "single", []) ]}).
Proof. vm_compute. reflexivity. Qed.

Example submit_tasks_round_starts :
  TaskManager.submit_tasks "optimization" [("0", "rdkit"); ("1", "psi4")]
    Fixtures.one_task_round Fixtures.running_store
  = (({| TaskManager.required_tasks := {[ "0" := "rdkit"; "1" := "psi4" ]} |},
      Fixtures.running_store), Ok true).
Proof. vm_compute. reflexivity. Qed.

Example done_false_while_record_missing :
  TaskManager.done
    {| TaskManager.required_tasks := {[ "0" := "a1"; "1" := "a2" ]} |}
    Fixtures.running_store
  = ([TaskManager.Get_procedures ["a2"; "a1"]], Ok false).
Proof. vm_compute. reflexivity. Qed.

Example expand_from_two_seeds :
  expand_ndimensional_grid [3; 3] [[0; 0]; [1; 1]] {[ [0; 0]; [1; 1] ]}
  = Ok [([0; 0], [1; 0]); ([1; 1], [0; 1]); ([1; 1], [2; 1]); ([1; 1], [1; 2])].
Proof. vm_compute. reflexivity. Qed.

Example expand_short_seed_raises :
  expand_ndimensional_grid [2; 2] [[0]] ∅ = Raise IndexError.
Proof. vm_compute. reflexivity. Qed.

(** Submitting task [t1] twice to an idle adapter queues it as two jobs
    under the same key. *)
Example submit_twice_queues_twice :
  Fireworks.submit_tasks
    [FireworksFixtures.task_of "t1"; FireworksFixtures.task_of "t1"]
    {| Fireworks.client := {| Fireworks.next_fw_id := 1;
                              Fireworks.workflows := [];
                              Fireworks.launches := [] |};
       Fireworks.queue := ∅ |}
  = ({| Fireworks.client :=
          {| Fireworks.next_fw_id := 3;
             Fireworks.workflows := [(1, FireworksFixtures.water);
                                     (2, FireworksFixtures.water)];
             Fireworks.launches := [] |};
        Fireworks.queue := Fireworks.queue FireworksFixtures.twice_queued |},
     Ok ["t1"; "t1"]).
Proof. vm_compute. reflexivity. Qed.

(** * Further properties *)

(** ** Loops *)

Section ForEachMore.
Context {A S : Type}.
Implicit Types (xs : list A) (body : A → stmt S).

(** An iteration that raises from every state makes the loop raise. *)
Lemma for_each_raises xs body x :
  x ∈ xs → (∀ st, (body x st).2 ≠ None) →
  ∀ st, (for_each xs body st).2 ≠ None.
Proof.
  intros Hx Hraise. induction xs as [|y xs IH]; intros st; simpl.
  - by apply elem_of_nil in Hx.
  - destruct (body y st) as [st' [e|]] eqn:Hy; simpl; [done|].
    apply elem_of_cons in Hx as [->|Hx]; [|by apply IH].
    specialize (Hraise st). by rewrite Hy in Hraise.
Qed.

(** A loop whose iterations only move the state forward along a preorder
    [R] moves it forward. *)
Lemma for_each_extends (R : S → S → Prop) `{!Reflexive R, !Transitive R} xs body :
  (∀ x st, x ∈ xs → R st (body x st).1) →
  ∀ st, R st (for_each xs body st).1.
Proof.
  induction xs as [|x xs IH]; intros Hbody st; simpl; [done|].
  pose proof (Hbody x st ltac:(left)) as Hx.
  destruct (body x st) as [st' [e|]]; simpl in *; [done|].
  etrans; [done|]. apply IH. intros y st0 Hy. apply Hbody. by right.
Qed.

(** If every iteration that does not raise establishes [Q x], and [Q x]
    survives moving forward along [R], then a loop that does not raise has
    established [Q x] for every element. *)
Lemma for_each_covers (R : S → S → Prop) `{!Reflexive R, !Transitive R}
    (Q : A → S → Prop) xs body :
  (∀ x st, x ∈ xs → R st (body x st).1) →
  (∀ x st st', Q x st → R st st' → Q x st') →
  (∀ x st, x ∈ xs → (body x st).2 = None → Q x (body x st).1) →
  ∀ st, (for_each xs body st).2 = None →
        ∀ x, x ∈ xs → Q x (for_each xs body st).1.
Proof.
  induction xs as [|y xs IH]; intros HR Hup HQ st Hnone x Hx.
  - by apply elem_of_nil in Hx.
  - simpl in *. pose proof (HQ y st ltac:(left)) as Hy.
    destruct (body y st) as [st' [e|]] eqn:Hbody; simpl in *; [done|].
    apply elem_of_cons in Hx as [->|Hx].
    + apply (Hup _ st'); [by apply Hy|].
      apply (for_each_extends R). intros z st0 Hz. apply HR. by right.
    + apply IH; try done.
      * intros z st0 Hz. apply HR. by right.
      * intros z st0 Hz. apply HQ. by right.
Qed.

(** A measure that grows by at most [c] per iteration grows by at most
    [c] times the number of iterations. *)
Lemma for_each_bound (m : S → nat) (c : nat) xs body :
  (∀ x st, x ∈ xs → (m (body x st).1 ≤ m st + c)%nat) →
  ∀ st, (m (for_each xs body st).1 ≤ m st + c * length xs)%nat.
Proof.
  induction xs as [|x xs IH]; intros Hbody st; simpl; [lia|].
  pose proof (Hbody x st ltac:(left)) as Hx.
  destruct (body x st) as [st' [e|]]; simpl in *; [lia|].
  etrans; [apply IH|lia]. intros y st0 Hy. apply Hbody. by right.
Qed.

End ForEachMore.

(** ** Frontier expansion *)

Section GridMore.
Implicit Types (dimensions : list Z) (seeds : list point)
  (complete compute : gset point) (connections : list connection)
  (seed n : point) (d : nat) (disp : Z) (st : frontier).

#[local] Instance grows_refl : Reflexive grows.
Proof. intros st. unfold grows. set_solver. Qed.

#[local] Instance grows_trans : Transitive grows.
Proof. intros st1 st2 st3. unfold grows. set_solver. Qed.

Lemma visit_grows dimensions complete d seed disp st :
  grows st (visit dimensions complete d seed disp st).1.
Proof.
  destruct st as [compute connections]. unfold grows.
  destruct (visit_cases dimensions complete d seed disp compute connections)
    as [[-> _]|[->|(coord & bound & _ & _ & _ & _ & _ & ->)]]; simpl;
    [done|done|apply union_subseteq_l].
Qed.

Lemma covered_grows dimensions complete v st st' :
  covered dimensions complete v st → grows st st' →
  covered dimensions complete v st'.
Proof.
  unfold covered, grows. intros Hcov Hsub coord bound Hs Hb Hrange Hk.
  apply Hsub. by eapply Hcov.
Qed.

Lemma visit_covers dimensions complete d seed disp st :
  (visit dimensions complete d seed disp st).2 = None →
  covered dimensions complete (d, seed, disp)
    (visit dimensions complete d seed disp st).1.
Proof.
  destruct st as [compute connections].
  intros Hnone coord bound Hs Hb Hrange Hk. simpl in Hs, Hb, Hrange, Hk |- *.
  revert Hnone. unfold visit. rewrite Hs, Hb.
  destruct (coord + disp >=? bound) eqn:Hge.
  { rewrite Z.geb_leb in Hge. apply Z.leb_le in Hge. lia. }
  destruct (coord + disp <? 0) eqn:Hlt.
  { apply Z.ltb_lt in Hlt. lia. }
  case_bool_decide as Hc; [done|].
  case_bool_decide as Hk'; [done|]. simpl. intros _.
  apply elem_of_union_r. by apply elem_of_singleton.
Qed.

(** A loop nest that does not raise has accounted for every visit. *)
Lemma expand_loops_cover dimensions seeds complete st :
  (expand_loops dimensions seeds complete st).2 = None →
  ∀ d seed disp,
    (d < length dimensions)%nat → seed ∈ seeds → disp = -1 ∨ disp = 1 →
    covered dimensions complete (d, seed, disp)
      (expand_loops dimensions seeds complete st).1.
Proof.
  intros Hnone d seed disp Hd Hseed Hdisp.
  assert (Hinner : ∀ d' seed' st0,
            grows st0 (for_each [-1; 1] (visit dimensions complete d' seed') st0).1).
  { intros d' seed' st0. apply (for_each_extends grows).
    intros disp' st1 _. apply visit_grows. }
  assert (Hmiddle : ∀ d' st0,
            grows st0 (for_each seeds (λ seed',
                         for_each [-1; 1] (visit dimensions complete d' seed')) st0).1).
  { intros d' st0. apply (for_each_extends grows). intros seed' st1 _. apply Hinner. }
  unfold expand_loops in *.
  assert (Hall : ∀ d, d ∈ seq 0 (length dimensions) →
            ∀ seed disp, seed ∈ seeds → disp = -1 ∨ disp = 1 →
              covered dimensions complete (d, seed, disp)
                (for_each (seq 0 (length dimensions)) (λ d,
                   for_each seeds (λ seed,
                     for_each [-1; 1] (visit dimensions complete d seed))) st).1).
  { apply (for_each_covers grows
             (λ d st, ∀ seed disp, seed ∈ seeds → disp = -1 ∨ disp = 1 →
                        covered dimensions complete (d, seed, disp) st));
      [| | |done].
    - intros d' st0 _. apply Hmiddle.
    - intros d' st0 st1 Hcov Hgrow seed' disp' Hs' Hd'.
      eapply covered_grows; [by apply Hcov|done].
    - intros d' st0 _ Hn0.
      assert (Hseeds : ∀ seed, seed ∈ seeds →
                ∀ disp, disp = -1 ∨ disp = 1 →
                  covered dimensions complete (d', seed, disp)
                    (for_each seeds (λ seed,
                       for_each [-1; 1] (visit dimensions complete d' seed)) st0).1).
      { apply (for_each_covers grows
                 (λ seed st, ∀ disp, disp = -1 ∨ disp = 1 →
                               covered dimensions complete (d', seed, disp) st));
          [| | |done].
        - intros seed0 st1 _. apply Hinner.
        - intros seed0 st1 st2 Hcov Hgrow disp0 Hd0.
          eapply covered_grows; [by apply Hcov|done].
        - intros seed0 st1 _ Hn1.
          assert (Hdisps : ∀ disp, disp ∈ [-1; 1] →
                    covered dimensions complete (d', seed0, disp)
                      (for_each [-1; 1] (visit dimensions complete d' seed0) st1).1).
          { apply (for_each_covers grows
                     (λ disp st, covered dimensions complete (d', seed0, disp) st));
              [| | |done].
            - intros disp1 st2 _. apply visit_grows.
            - intros disp1 st2 st3. apply covered_grows.
            - intros disp1 st2 _. apply visit_covers. }
          intros disp0 [-> | ->]; apply Hdisps; [left|right; left]. }
      intros seed' disp' Hs' Hd'. by apply Hseeds. }
  apply Hall; [|done|done]. apply elem_of_seq. simpl. lia.
Qed.

(** Invariant: every emitted neighbour is a candidate. *)
Lemma visit_candidates dimensions seeds complete d seed disp st :
  seed ∈ seeds → disp = -1 ∨ disp = 1 →
  Forall (candidate dimensions seeds complete) st.2.*2 →
  Forall (candidate dimensions seeds complete)
    (visit dimensions complete d seed disp st).1.2.*2.
Proof.
  intros Hseed Hdisp Hst. destruct st as [compute connections].
  destruct (visit_cases dimensions complete d seed disp compute connections)
    as [[-> _]|[->|(coord & bound & Hs & Hb & Hrange & _ & Hk & ->)]];
    simpl in *; [done|done|].
  rewrite fmap_app. apply Forall_app. split; [done|]. apply Forall_singleton.
  by exists seed, d, coord, bound, disp.
Qed.

(** What the loop nest leaves behind when it does not raise. *)
Lemma expand_loops_result dimensions seeds complete :
  let out := expand_loops dimensions seeds complete (∅, []) in
  fresh_frontier complete out.1 ∧
  Forall (candidate dimensions seeds complete) out.1.2.*2.
Proof.
  simpl. split.
  - apply (expand_loops_post dimensions seeds complete
             (fresh_frontier complete)
             (λ e, e = IndexError ∧
                   ∃ s, s ∈ seeds ∧ (length s < length dimensions)%nat)).
    + intros d seed disp st Hd Hseed _ Hst. by apply visit_fresh_frontier.
    + repeat split; simpl; try apply NoDup_nil_2; set_solver.
  - apply (expand_loops_post dimensions seeds complete
             (λ st, Forall (candidate dimensions seeds complete) st.2.*2)
             (λ _, True)).
    + intros d seed disp st Hd Hseed Hdisp Hst.
      split; [by apply visit_candidates|done].
    + simpl. constructor.
Qed.

End GridMore.

Section GridTotality.
Implicit Types (dimensions : list Z) (seeds : list point)
  (complete : gset point) (seed : point) (st : frontier).

(** With seeds of full arity no visit raises. *)
Lemma expand_loops_safe dimensions seeds complete st :
  full_arity dimensions seeds →
  (expand_loops dimensions seeds complete st).2 = None.
Proof.
  intros Harity.
  destruct (expand_loops_post dimensions seeds complete (λ _, True) (λ _, False))
    with (st := st) as [_ HE]; [|done|].
  - intros d seed disp [compute connections] Hd Hseed _ _. split; [done|].
    destruct (visit_cases dimensions complete d seed disp compute connections)
      as [[-> Hnone]|[->|(coord & bound & _ & _ & _ & _ & _ & ->)]];
      simpl; [|done|done].
    intros e _. unfold full_arity in Harity. rewrite Forall_forall in Harity.
    pose proof (Harity seed Hseed).
    destruct Hnone as [Hnone|Hnone]; apply lookup_ge_None in Hnone; lia.
  - destruct (expand_loops dimensions seeds complete st).2 as [e|]; [|done].
    destruct (HE e eq_refl).
Qed.

(** A seed that lacks a coordinate for some axis makes the loop nest
    raise. *)
Lemma expand_loops_short_seed dimensions seeds complete seed st :
  seed ∈ seeds → (length seed < length dimensions)%nat →
  (expand_loops dimensions seeds complete st).2 ≠ None.
Proof.
  intros Hseed Hshort. unfold expand_loops.
  apply (for_each_raises _ _ (length seed)).
  { apply elem_of_seq. simpl. lia. }
  intros st1. apply (for_each_raises _ _ seed); [done|].
  intros st2. apply (for_each_raises _ _ (-1)); [left|].
  intros [compute connections]. unfold visit.
  by rewrite (proj2 (lookup_ge_None seed (length seed)) ltac:(lia)).
Qed.

(** When [complete] holds every candidate, no visit changes the state. *)
Lemma expand_loops_exhausted dimensions seeds complete st :
  full_arity dimensions seeds →
  exhausted dimensions seeds complete →
  expand_loops dimensions seeds complete st = (st, None).
Proof.
  intros Harity Hdone.
  destruct (expand_loops_post dimensions seeds complete (λ st', st' = st) (λ _, False))
    with (st := st) as [HI HE]; [|done|].
  - intros d seed disp [compute connections] Hd Hseed Hdisp <-.
    destruct (visit_cases dimensions complete d seed disp compute connections)
      as [[-> Hnone]|[->|(coord & bound & Hs & Hb & Hrange & _ & Hk & ->)]];
      simpl.
    + split; [done|]. intros e _.
      unfold full_arity in Harity. rewrite Forall_forall in Harity.
      pose proof (Harity seed Hseed).
      destruct Hnone as [Hnone|Hnone]; apply lookup_ge_None in Hnone; lia.
    + done.
    + destruct Hk. by eapply Hdone.
  - destruct (expand_loops dimensions seeds complete st) as [st' [e|]]; simpl in *.
    + destruct (HE e eq_refl).
    + by rewrite HI.
Qed.

(** The only exception of the loop nest is IndexError. *)
Lemma expand_loops_raises_IndexError dimensions seeds complete st e :
  (expand_loops dimensions seeds complete st).2 = Some e → e = IndexError.
Proof.
  destruct (expand_loops_post dimensions seeds complete (λ _, True)
              (λ e, e = IndexError)) with (st := st) as [_ HE]; [|done|by apply HE].
  intros d seed disp [compute connections] _ _ _ _. split; [done|].
  destruct (visit_cases dimensions complete d seed disp compute connections)
    as [[-> _]|[->|(coord & bound & _ & _ & _ & _ & _ & ->)]]; simpl;
    [|done|done].
  by intros e' [= <-].
Qed.

(** A visit appends at most one connection. *)
Lemma visit_length dimensions complete d seed disp st :
  (length (visit dimensions complete d seed disp st).1.2 ≤ length st.2 + 1)%nat.
Proof.
  destruct st as [compute connections].
  destruct (visit_cases dimensions complete d seed disp compute connections)
    as [[-> _]|[->|(coord & bound & _ & _ & _ & _ & _ & ->)]]; simpl; try lia.
  rewrite length_app. simpl. lia.
Qed.

(** The loop nest appends at most two connections per axis and seed. *)
Lemma expand_loops_length dimensions seeds complete st :
  (length (expand_loops dimensions seeds complete st).1.2
   ≤ length st.2 + 2 * length seeds * length dimensions)%nat.
Proof.
  unfold expand_loops.
  set (m := λ st : gset (list Z) * list (list Z * list Z), length st.2).
  assert (Hinner : ∀ d seed st0,
            (m (for_each [-1; 1]%Z (visit dimensions complete d seed) st0).1
             ≤ m st0 + 2)%nat).
  { intros d seed st0.
    etrans; [apply (for_each_bound m 1)|simpl; lia].
    intros disp st1 _. apply visit_length. }
  assert (Hmiddle : ∀ d st0,
            (m (for_each seeds (λ seed,
                  for_each [-1; 1]%Z (visit dimensions complete d seed)) st0).1
             ≤ m st0 + 2 * length seeds)%nat).
  { intros d st0. apply (for_each_bound m 2). intros seed st1 _. apply Hinner. }
  change (length ?x.2) with (m x).
  etrans; [apply (for_each_bound m (2 * length seeds))|by rewrite length_seq].
  intros d st0 _. apply Hmiddle.
Qed.

End GridTotality.

Section GridResult.
Implicit Types (dimensions : list Z) (seeds : list point)
  (complete : gset point) (connections : list connection).

(** What a returned expansion tells: the seeds have full arity, the
    neighbours are pairwise distinct, and they are exactly the candidates. *)
Lemma expand_ok_inv dimensions seeds complete connections :
  expand_ndimensional_grid dimensions seeds complete = Ok connections →
  full_arity dimensions seeds ∧ NoDup connections.*2 ∧
  ∀ n, n ∈ connections.*2 ↔ candidate dimensions seeds complete n.
Proof.
  unfold expand_ndimensional_grid. intros Hcall.
  destruct (expand_loops_result dimensions seeds complete) as [Hfresh Hcand].
  pose proof (expand_loops_cover dimensions seeds complete (∅, [])) as Hcover.
  assert (Harity : full_arity dimensions seeds).
  { destruct (decide (full_arity dimensions seeds)) as [|Hshort]; [done|].
    apply not_Forall_Exists in Hshort; [|apply _].
    apply Exists_exists in Hshort as (seed & Hseed & Hlen). simpl in Hlen.
    assert (Hlt : (length seed < length dimensions)%nat) by lia.
    pose proof (expand_loops_short_seed dimensions seeds complete seed (∅, [])
                  Hseed Hlt) as Hraise.
    by destruct (expand_loops dimensions seeds complete (∅, []))
      as [[compute conns] [e|]]. }
  destruct (expand_loops dimensions seeds complete (∅, []))
    as [[compute conns] [e|]]; simpl in *; [done|].
  injection Hcall as <-. destruct Hfresh as (Hnd & Hiff & _).
  split; [done|]. split; [done|]. intros n. split.
  - intros Hn. rewrite Forall_forall in Hcand. by apply Hcand.
  - intros (seed & d & coord & bound & disp & Hseed & Hs & Hb & Hdisp & Hrange & -> & Hk).
    apply Hiff; simpl.
    assert (Hd : (d < length dimensions)%nat) by by eapply lookup_lt_Some.
    by apply (Hcover eq_refl d seed disp Hd Hseed Hdisp coord bound).
Qed.

(** Candidates depend on the seeds only as a set. *)
Lemma candidate_seeds_ext dimensions seeds seeds' complete n :
  (∀ s, s ∈ seeds ↔ s ∈ seeds') →
  candidate dimensions seeds complete n → candidate dimensions seeds' complete n.
Proof.
  intros Hsame (seed & d & coord & bound & disp & Hseed & Hrest).
  exists seed, d, coord, bound, disp. split; [by apply Hsame|done].
Qed.

End GridResult.

(** X1.  The neighbours the expansion returns are exactly its candidates:
    the points one step of one along one axis from a seed, with the moved
    coordinate within that axis' bound, that are not in [complete]. *)
Theorem expand_emits_candidates dimensions seeds complete connections :
  expand_ndimensional_grid dimensions seeds complete = Ok connections →
  ∀ n, n ∈ connections.*2 ↔ candidate dimensions seeds complete n.
Proof. intros Hcall. by apply expand_ok_inv in Hcall as (_ & _ & Hiff). Qed.

Lemma expand_emits_candidates_witness :
  [0; 1] ∈ [[0; 1]; [2; 1]; [1; 0]; [1; 2]] ↔ candidate [3; 3] [[1; 1]] ∅ [0; 1].
Proof.
  apply (expand_emits_candidates [3; 3] [[1; 1]] ∅
           [([1; 1], [0; 1]); ([1; 1], [2; 1]); ([1; 1], [1; 0]); ([1; 1], [1; 2])]).
  vm_compute. reflexivity.
Defined.

(** X2.  The expansion returns exactly when every seed has a coordinate for
    every axis; otherwise it raises IndexError. *)
Theorem expand_returns_iff_full_arity dimensions seeds complete :
  match expand_ndimensional_grid dimensions seeds complete with
  | Ok _ => full_arity dimensions seeds
  | Raise e => e = IndexError ∧ ¬ full_arity dimensions seeds
  end.
Proof.
  destruct (decide (full_arity dimensions seeds)) as [Harity|Hshort].
  - unfold expand_ndimensional_grid.
    pose proof (expand_loops_safe dimensions seeds complete (∅, []) Harity) as Hsafe.
    by destruct (expand_loops dimensions seeds complete (∅, []))
      as [[compute connections] [e|]].
  - pose proof (expand_loops_raises_IndexError dimensions seeds complete (∅, []))
      as Hpost.
    unfold expand_ndimensional_grid in *.
    apply not_Forall_Exists in Hshort; [|apply _].
    apply Exists_exists in Hshort as (seed & Hseed & Hlen). simpl in Hlen.
    assert (Hlt : (length seed < length dimensions)%nat) by lia.
    pose proof (expand_loops_short_seed dimensions seeds complete seed (∅, [])
                  Hseed Hlt) as Hraise.
    destruct (expand_loops dimensions seeds complete (∅, []))
      as [[compute connections] [e|]]; simpl in *; [|done].
    split; [by apply Hpost|].
    unfold full_arity. rewrite Forall_forall. intros Hall.
    specialize (Hall seed Hseed). simpl in Hall. lia.
Qed.

(** X3.  The expansion returns at most two connections per axis and seed. *)
Theorem expand_length_bound dimensions seeds complete connections :
  expand_ndimensional_grid dimensions seeds complete = Ok connections →
  (length connections ≤ 2 * length seeds * length dimensions)%nat.
Proof.
  unfold expand_ndimensional_grid. intros Hcall.
  pose proof (expand_loops_length dimensions seeds complete (∅, [])) as Hbound.
  destruct (expand_loops dimensions seeds complete (∅, []))
    as [[compute conns] [e|]]; simpl in *; [done|].
  injection Hcall as <-. lia.
Qed.

Lemma expand_length_bound_witness :
  (length [([1; 1], [0; 1]); ([1; 1], [2; 1]); ([1; 1], [1; 0]); ([1; 1], [1; 2])]%Z
   ≤ 2 * length [[1; 1]]%Z * length [3; 3]%Z)%nat.
Proof.
  apply (expand_length_bound [3; 3] [[1; 1]] ∅). vm_compute. reflexivity.
Defined.

(** X4.  The sets of neighbours returned for two seed sequences with the
    same elements are the same, and so is their number: the order in which
    the seed set is visited only changes the order of the result and the
    origin a neighbour is paired with. *)
Theorem expand_seed_order_irrelevant dimensions seeds seeds' complete connections :
  (∀ s, s ∈ seeds ↔ s ∈ seeds') →
  expand_ndimensional_grid dimensions seeds complete = Ok connections →
  ∃ connections',
    expand_ndimensional_grid dimensions seeds' complete = Ok connections' ∧
    (∀ n, n ∈ connections.*2 ↔ n ∈ connections'.*2) ∧
    length connections' = length connections.
Proof.
  intros Hsame Hcall.
  apply expand_ok_inv in Hcall as (Harity & Hnd & Hiff).
  assert (Harity' : full_arity dimensions seeds').
  { unfold full_arity in *. rewrite Forall_forall in *.
    intros s Hs. apply Harity. by apply Hsame. }
  pose proof (expand_loops_safe dimensions seeds' complete (∅, []) Harity') as Hsafe.
  destruct (expand_ndimensional_grid dimensions seeds' complete) as [conns'|e] eqn:Hcall'.
  - exists conns'. split; [done|].
    apply expand_ok_inv in Hcall' as (_ & Hnd' & Hiff').
    assert (Helems : ∀ n, n ∈ connections.*2 ↔ n ∈ conns'.*2).
    { intros n. rewrite Hiff, Hiff'. split; apply candidate_seeds_ext; [done|].
      intros s. by symmetry. }
    split; [done|].
    rewrite <- (length_fmap snd conns'), <- (length_fmap snd connections).
    apply Permutation_length. by apply NoDup_Permutation.
  - unfold expand_ndimensional_grid in Hcall'.
    by destruct (expand_loops dimensions seeds' complete (∅, []))
      as [[compute conns] [e'|]].
Qed.

Lemma expand_seed_order_irrelevant_witness :
  ∃ connections',
    expand_ndimensional_grid [3; 3] [[1; 1]; [0; 0]] ∅ = Ok connections' ∧
    (∀ n, n ∈ [[1; 0]; [0; 1]; [2; 1]; [1; 2]] ↔ n ∈ connections'.*2) ∧
    length connections' = 4%nat.
Proof.
  apply (expand_seed_order_irrelevant [3; 3] [[0; 0]; [1; 1]] [[1; 1]; [0; 0]] ∅
           [([0; 0], [1; 0]); ([1; 1], [0; 1]); ([1; 1], [2; 1]); ([1; 1], [1; 2])]).
  - intros s. rewrite !elem_of_cons. tauto.
  - vm_compute. reflexivity.
Defined.

(** X5.  Expanding again from the same seeds, once the neighbours just
    returned have been added to [complete], returns the empty list. *)
Theorem expand_again_is_empty dimensions seeds complete connections :
  expand_ndimensional_grid dimensions seeds complete = Ok connections →
  expand_ndimensional_grid dimensions seeds (complete ∪ list_to_set connections.*2)
  = Ok [].
Proof.
  intros Hcall. apply expand_ok_inv in Hcall as (Harity & _ & Hiff).
  unfold expand_ndimensional_grid.
  rewrite expand_loops_exhausted; [done|done|].
  intros seed d coord bound disp Hseed Hs Hb Hdisp Hrange.
  destruct (decide ((<[d := coord + disp]> seed) ∈ complete)) as [Hin|Hout].
  - by apply elem_of_union_l.
  - apply elem_of_union_r, elem_of_list_to_set, Hiff.
    by exists seed, d, coord, bound, disp.
Qed.

Lemma expand_again_is_empty_witness :
  expand_ndimensional_grid [3; 3] [[1; 1]]
    (∅ ∪ list_to_set [[0; 1]; [2; 1]; [1; 0]; [1; 2]]) = Ok [].
Proof.
  apply (expand_again_is_empty [3; 3] [[1; 1]] ∅
           [([1; 1], [0; 1]); ([1; 1], [2; 1]); ([1; 1], [1; 0]); ([1; 1], [1; 2])]).
  vm_compute. reflexivity.
Defined.

(** ** TaskManager *)

Section ListFacts.
Context {A : Type} `{!EqDecision A}.
Implicit Types (l : list A).

Lemma remove_dups_length_le l : (length (remove_dups l) ≤ length l)%nat.
Proof.
  induction l as [|x l IH]; simpl; [done|].
  destruct (decide_rel elem_of x l); simpl; lia.
Qed.

(** A list with a repeated element has fewer distinct elements than
    elements. *)
Lemma remove_dups_length_lt l :
  ¬ NoDup l → (length (remove_dups l) < length l)%nat.
Proof.
  induction l as [|x l IH]; intros Hdup; simpl.
  - destruct Hdup. constructor.
  - destruct (decide_rel elem_of x l) as [Hin|Hout]; simpl.
    + pose proof (remove_dups_length_le l). lia.
    + assert (¬ NoDup l) as Hl by (intros Hnd; apply Hdup; by constructor).
      specialize (IH Hl). lia.
Qed.

End ListFacts.

Section TaskManagerMore.
Import TaskManager.
Context {W P : Type} `{!StorageSocket W, !SubmissionPath W P}.
Implicit Types (self : TaskManager) (w : W).

(** Two keys of [required_tasks] with the same task id repeat the id in
    the list of required ids. *)
Lemma required_ids_shared self k1 k2 id :
  k1 ≠ k2 →
  required_tasks self !! k1 = Some id → required_tasks self !! k2 = Some id →
  ¬ NoDup (required_ids self).
Proof.
  intros Hne H1 H2 Hnd. unfold required_ids in Hnd.
  apply elem_of_map_to_list, list_elem_of_lookup in H1 as [i1 Hi1].
  apply elem_of_map_to_list, list_elem_of_lookup in H2 as [i2 Hi2].
  assert (i1 = i2) as ->.
  { eapply (NoDup_lookup _ i1 i2 id Hnd); rewrite list_lookup_fmap.
    - by rewrite Hi1.
    - by rewrite Hi2. }
  congruence.
Qed.

(** The loop of [get_tasks] when the storage has a record for every id. *)
Lemma fetch_loop w (l : list (string * string)) ret calls :
  NoDup l.*1 →
  (∀ k id, (k, id) ∈ l → is_Some (get_procedures w [id] !! 0%nat)) →
  ∃ ret',
    for_each l (fetch_one w) (ret, calls)
      = ((ret', calls ++ ((λ item, Get_procedures [item.2]) <$> l)), None) ∧
    (∀ k, k ∉ l.*1 → ret' !! k = ret !! k) ∧
    ∀ k id, (k, id) ∈ l → ret' !! k = get_procedures w [id] !! 0%nat.
Proof.
  revert ret calls. induction l as [|[k0 id0] l IH]; intros ret calls Hnd Hrec.
  - exists ret. simpl. rewrite app_nil_r. split; [done|]. split; [done|].
    intros k id Hin. by apply elem_of_nil in Hin.
  - simpl in Hnd. apply NoDup_cons in Hnd as [Hk0 Hnd].
    destruct (Hrec k0 id0 ltac:(left)) as [record Hrecord].
    destruct (IH (<[k0 := record]> ret) (calls ++ [Get_procedures [id0]]) Hnd)
      as (ret' & Hloop & Hkeep & Hnew).
    { intros k id Hin. apply (Hrec k id). by right. }
    exists ret'. cbn [for_each]. unfold fetch_one at 1. rewrite Hrecord, Hloop.
    split; [by rewrite <- app_assoc|]. split.
    + intros k Hk. simpl in Hk. apply not_elem_of_cons in Hk as [Hne Hk].
      rewrite Hkeep by done. by rewrite lookup_insert_ne.
    + intros k id [[= -> ->]|Hin]%elem_of_cons.
      * rewrite Hkeep by done. by rewrite lookup_insert_eq.
      * by apply Hnew.
Qed.

(** The loop of [get_tasks] raises nothing but IndexError, and it does when
    an id has no record. *)
Lemma fetch_loop_raises w (l : list (string * string)) st :
  (∀ e, (for_each l (fetch_one w) st).2 = Some e → e = IndexError) ∧
  ((∃ k id, (k, id) ∈ l ∧ get_procedures w [id] = []) →
   (for_each l (fetch_one w) st).2 ≠ None).
Proof.
  split.
  - apply (for_each_post (λ _, True) (λ e, e = IndexError)); [|done].
    intros [k id] [ret calls] _ _. split; [done|]. unfold fetch_one.
    destruct (get_procedures w [id] !! 0%nat); simpl; [done|]. by intros e [= <-].
  - intros (k & id & Hin & Hnone). apply (for_each_raises _ _ (k, id)); [done|].
    intros [ret calls]. unfold fetch_one. by rewrite Hnone.
Qed.

End TaskManagerMore.

Section TaskManagerExtras.
Import TaskManager.
Context {W P : Type} `{!StorageSocket W, !SubmissionPath W P}.
Implicit Types (self : TaskManager) (w : W).

(** The loop of [submit_tasks] when every packet validates and is accepted
    by the parser. *)
Lemma submit_loop_ok (procedure_parser : packet → W → submit_response * W)
    (tasks : list (string * P)) (required : gmap string string) w :
  (∀ key raw, (key, raw) ∈ tasks →
     ∃ pkt, TaskQueuePOSTBody raw = Some pkt ∧
            ∀ w0, meta_errors (procedure_parser pkt w0).1 = [] ∧
                  is_Some (data_ids (procedure_parser pkt w0).1 !! 0%nat)) →
  ∃ required' w',
    for_each tasks (submit_one procedure_parser) (required, w)
      = ((required', w'), None) ∧
    dom required' = dom required ∪ list_to_set tasks.*1 ∧
    (∀ key, key ∉ tasks.*1 → required' !! key = required !! key) ∧
    ∀ key, key ∈ tasks.*1 →
      ∃ raw pkt w0, (key, raw) ∈ tasks ∧ TaskQueuePOSTBody raw = Some pkt ∧
        required' !! key = data_ids (procedure_parser pkt w0).1 !! 0%nat.
Proof.
  revert required w. induction tasks as [|[k0 raw0] tasks IH]; intros required w Hok.
  - exists required, w. simpl. split; [done|]. split; [by rewrite union_empty_r_L|].
    split; [done|]. intros key Hkey. by apply elem_of_nil in Hkey.
  - destruct (Hok k0 raw0 ltac:(left)) as (pkt0 & Hvalid & Haccept).
    destruct (Haccept w) as [Herr [id0 Hid]].
    destruct (procedure_parser pkt0 w) as [r w1] eqn:Hsubmit; simpl in *.
    destruct (IH (<[k0 := id0]> required) w1) as (required' & w' & Hloop & Hdom & Hkeep & Hnew).
    { intros key raw Hin. apply (Hok key raw). by right. }
    exists required', w'. rewrite Hvalid, Hsubmit, Herr. simpl. rewrite Hid, Hloop.
    split; [done|]. split; [|split].
    + rewrite Hdom, dom_insert_L. simpl.
      by rewrite (union_comm_L {[k0]}), <- (assoc_L (∪)).
    + intros key [Hne Hkey]%not_elem_of_cons.
      rewrite Hkeep by done. by rewrite lookup_insert_ne.
    + intros key Hkey.
      destruct (decide (key ∈ tasks.*1)) as [Hin|Hout].
      * destruct (Hnew key Hin) as (raw & pkt & w0 & Hraw & Hpkt & Hval).
        exists raw, pkt, w0. split; [by right|done].
      * apply elem_of_cons in Hkey as [->|Hkey]; [|done].
        exists raw0, pkt0, w. split; [left|]. split; [done|].
        rewrite Hkeep by done. rewrite lookup_insert_eq, Hsubmit. by simpl.
Qed.

(** X6.  When the storage has a record for every required id taken alone,
    [get_tasks] returns a mapping with exactly the keys of [required_tasks],
    each holding the first record the storage returns for the key's id. *)
Theorem get_tasks_returns_records self w :
  (∀ k id, required_tasks self !! k = Some id →
           is_Some (get_procedures w [id] !! 0%nat)) →
  ∃ ret,
    (get_tasks self w).2 = Ok ret ∧
    dom ret = dom (required_tasks self) ∧
    ∀ k id, required_tasks self !! k = Some id →
            ret !! k = get_procedures w [id] !! 0%nat.
Proof.
  intros Hrec. unfold get_tasks.
  destruct (fetch_loop w (map_to_list (required_tasks self)) ∅ [])
    as (ret & Hloop & Hkeep & Hnew).
  - apply NoDup_fst_map_to_list.
  - intros k id Hin. apply (Hrec k id). by apply elem_of_map_to_list.
  - exists ret. rewrite Hloop. simpl. split; [done|].
    assert (Hval : ∀ k id, required_tasks self !! k = Some id →
                           ret !! k = get_procedures w [id] !! 0%nat).
    { intros k id Hk. apply Hnew. by apply elem_of_map_to_list. }
    split; [|done]. apply set_eq. intros k. rewrite !elem_of_dom. split.
    + intros Hk. destruct (required_tasks self !! k) as [id|] eqn:Hreq; [done|].
      rewrite Hkeep, lookup_empty in Hk; [done|].
      intros ([k' id] & -> & Hin)%list_elem_of_fmap.
      apply elem_of_map_to_list in Hin. simpl in Hreq. congruence.
    + intros [id Hk]. rewrite (Hval k id Hk). by apply (Hrec k id).
Qed.

(** X7.  When the storage has no record for the id of some required task,
    [get_tasks] raises IndexError. *)
Theorem get_tasks_missing_record self w k id :
  required_tasks self !! k = Some id → get_procedures w [id] = [] →
  (get_tasks self w).2 = Raise IndexError.
Proof.
  intros Hk Hnone. unfold get_tasks.
  destruct (fetch_loop_raises w (map_to_list (required_tasks self)) (∅, []))
    as [Honly Hraise].
  assert ((for_each (map_to_list (required_tasks self)) (fetch_one w) (∅, [])).2 ≠ None)
    as Hsome.
  { apply Hraise. exists k, id. split; [|done]. by apply elem_of_map_to_list. }
  destruct (for_each (map_to_list (required_tasks self)) (fetch_one w) (∅, []))
    as [[ret calls] [e|]]; simpl in *; [|done].
  by rewrite (Honly e eq_refl).
Qed.

(** X8.  When two keys of [required_tasks] hold the same task id and the
    storage returns at most one record per distinct id asked for, [done]
    returns false, whatever the status of the records. *)
Theorem done_false_with_shared_task self w k1 k2 id :
  k1 ≠ k2 →
  required_tasks self !! k1 = Some id → required_tasks self !! k2 = Some id →
  (length (get_procedures w (required_ids self))
   ≤ length (remove_dups (required_ids self)))%nat →
  done self w = ([Get_procedures (required_ids self)], Ok false).
Proof.
  intros Hne H1 H2 Hstore.
  pose proof (remove_dups_length_lt (required_ids self)
                (required_ids_shared self k1 k2 id Hne H1 H2)) as Hlt.
  assert (length (required_ids self) = size (required_tasks self)) as Hsize.
  { unfold required_ids. by rewrite length_fmap, length_map_to_list. }
  apply done_false_on_count_mismatch; [|lia].
  intros Hzero. apply map_size_empty_inv in Hzero.
  by rewrite Hzero, lookup_empty in H1.
Qed.


(** X11.  Submitting an empty batch under a known procedure type leaves an
    empty round, for which [done] returns true without a storage call. *)
Theorem submit_nothing_then_done procedure_type procedure_parser self w :
  get_procedure_parser procedure_type = Ok procedure_parser →
  (submit_tasks procedure_type ([] : list (string * P)) self w).2 = Ok true ∧
  done (submit_tasks procedure_type ([] : list (string * P)) self w).1.1
       (submit_tasks procedure_type ([] : list (string * P)) self w).1.2
  = ([], Ok true).
Proof. intros Hparser. unfold submit_tasks. by rewrite Hparser. Qed.

End TaskManagerExtras.

Lemma get_tasks_returns_records_witness :
  ∃ ret,
    (TaskManager.get_tasks Fixtures.one_task_round MoreFixtures.complete_store).2
      = Ok ret ∧
    dom ret = dom (TaskManager.required_tasks Fixtures.one_task_round) ∧
    ∀ k id, TaskManager.required_tasks Fixtures.one_task_round !! k = Some id →
            ret !! k
            = TaskManager.get_procedures MoreFixtures.complete_store [id] !! 0%nat.
Proof.
  apply (get_tasks_returns_records Fixtures.one_task_round MoreFixtures.complete_store).
  intros k id Hk. unfold Fixtures.one_task_round in Hk. simpl in Hk.
  apply lookup_singleton_Some in Hk as [<- <-]. by eexists.
Defined.

Lemma get_tasks_missing_record_witness :
  (TaskManager.get_tasks Fixtures.one_task_round MoreFixtures.empty_store).2
  = Raise IndexError.
Proof.
  apply (get_tasks_missing_record Fixtures.one_task_round MoreFixtures.empty_store
           "0" "a1"); reflexivity.
Defined.

Lemma done_false_with_shared_task_witness :
  TaskManager.done MoreFixtures.shared_round MoreFixtures.complete_store
  = ([TaskManager.Get_procedures (required_ids MoreFixtures.shared_round)], Ok false).
Proof.
  apply (done_false_with_shared_task MoreFixtures.shared_round
           MoreFixtures.complete_store "0" "1" "a1").
  - discriminate.
  - vm_compute. reflexivity.
  - vm_compute. reflexivity.
  - vm_compute. lia.
Defined.


Lemma submit_tasks_raise_keeps_round_witness :
  (TaskManager.submit_tasks "optimization" [("0", "rdkit"); ("1", "waffles_crasher")]
     MoreFixtures.shared_round Fixtures.running_store).1.1
  = MoreFixtures.shared_round.
Proof.
  apply (submit_tasks_raise_keeps_round (P := string) "optimization"
           [("0", "rdkit"); ("1", "waffles_crasher")]
           MoreFixtures.shared_round Fixtures.running_store (NameError "errors")).
  vm_compute. reflexivity.
Defined.

Lemma submit_nothing_then_done_witness :
  (TaskManager.submit_tasks "optimization" ([] : list (string * string))
     Fixtures.one_task_round Fixtures.running_store).2 = Ok true ∧
  TaskManager.done
    (TaskManager.submit_tasks "optimization" ([] : list (string * string))
       Fixtures.one_task_round Fixtures.running_store).1.1
    (TaskManager.submit_tasks "optimization" ([] : list (string * string))
       Fixtures.one_task_round Fixtures.running_store).1.2
  = ([], Ok true).
Proof.
  eapply (submit_nothing_then_done (P := string)). reflexivity.
Defined.

(** ** FireworksAdapter *)

Section FireworksMore.
Import Fireworks.
Implicit Types (self : FireworksAdapter) (tasks : list task) (l : launch)
  (q : gmap Z (string * string * list string))
  (ret : gmap string (gmap string json * string * list string)).

(** A loop of [acquire_complete] that does not raise has popped exactly
    the launches it went through. *)
Lemma collect_loop_queue (ls : list launch) q ret q' ret' :
  for_each ls collect (q, ret) = ((q', ret'), None) →
  q' = foldl (λ q l, delete (fw_id l) q) q ls.
Proof.
  revert q ret. induction ls as [|l ls IH]; intros q ret Hloop;
    cbn [for_each foldl] in *.
  - by injection Hloop as <- _.
  - destruct (collect l (q, ret)) as [[q1 ret1] [e|]] eqn:Hstep; [done|].
    apply IH in Hloop as ->. f_equal.
    unfold collect in Hstep.
    destruct (q !! fw_id l) as [[[key p] h]|]; [|done].
    repeat (case_match; simplify_eq/=); done.
Qed.

(** Whatever the loop of [acquire_complete] does, the queue only shrinks,
    and every entry of [ret] carries the key, parser and hooks of an entry
    of the queue the loop started from. *)
Lemma collect_loop_origin (ls : list launch) q0 q ret :
  q ⊆ q0 →
  (∀ key v, ret !! key = Some v → ∃ job, q0 !! job = Some (key, v.1.2, v.2)) →
  let out := for_each ls collect (q, ret) in
  out.1.1 ⊆ q0 ∧
  ∀ key v, out.1.2 !! key = Some v → ∃ job, q0 !! job = Some (key, v.1.2, v.2).
Proof.
  intros Hsub Hret. simpl.
  apply (for_each_post
           (λ st : gmap Z (string * string * list string)
                   * gmap string (gmap string json * string * list string),
              st.1 ⊆ q0 ∧
              ∀ key v, st.2 !! key = Some v →
                       ∃ job, q0 !! job = Some (key, v.1.2, v.2))
           (λ _, True)); [|done].
  intros l [q1 ret1] _ [Hq1 Hret1]. split; [|done].
  assert (Hdel : delete (fw_id l) q1 ⊆ q0).
  { etrans; [apply delete_subseteq|done]. }
  assert (Hins : ∀ key p h (b : gmap string json),
            q1 !! fw_id l = Some (key, p, h) →
            ∀ key' v, <[key := (b, p, h)]> ret1 !! key' = Some v →
                      ∃ job, q0 !! job = Some (key', v.1.2, v.2)).
  { intros key p h b Hq key' v Hv.
    destruct (decide (key = key')) as [->|Hne].
    - rewrite lookup_insert_eq in Hv. injection Hv as <-. simpl.
      exists (fw_id l). by eapply lookup_weaken.
    - rewrite lookup_insert_ne in Hv by done. by apply Hret1. }
  unfold collect.
  destruct (q1 !! fw_id l) as [[[key p] h]|] eqn:Hq; [|done].
  repeat (case_match; simplify_eq/=); split; eauto.
Qed.

(** The cursor is empty when no launch of a queued job is in a terminal
    state. *)
Lemma cursor_nil self :
  (∀ l, l ∈ launches (client self) → is_Some (queue self !! fw_id l) →
        state l ≠ "COMPLETED" ∧ state l ≠ "FIZZLED") →
  cursor self = [].
Proof.
  intros Hidle. destruct (cursor self) as [|l ls] eqn:Hcursor; [done|].
  assert (Hl : l ∈ cursor self) by (rewrite Hcursor; left).
  destruct (cursor_queued self l Hl) as [Hq Hst].
  unfold cursor, launches_find in Hl. apply list_elem_of_filter in Hl as [_ Hin].
  destruct (Hidle l Hin Hq) as [Hc Hf]. by destruct Hst.
Qed.

Lemma acquire_complete_nil self :
  cursor self = [] → acquire_complete self = (self, Ok ∅).
Proof. intros Hnil. unfold acquire_complete. rewrite Hnil. by destruct self. Qed.

End FireworksMore.

Section FireworksExtras.
Import Fireworks.
Implicit Types (self : FireworksAdapter) (tasks : list task) (l : launch)
  (q : gmap Z (string * string * list string))
  (ret : gmap string (gmap string json * string * list string)).

(** A terminal launch of a queued job is in the cursor. *)
Lemma cursor_elem self l :
  l ∈ launches (client self) → is_Some (queue self !! fw_id l) →
  state l = "COMPLETED" ∨ state l = "FIZZLED" →
  l ∈ cursor self.
Proof.
  intros Hin [e Hq] Hst. unfold cursor, launches_find.
  apply list_elem_of_filter. split; [|done]. split.
  - apply list_elem_of_fmap. exists (fw_id l, e). split; [done|].
    by apply elem_of_map_to_list.
  - destruct Hst as [-> | ->]; [left|right; left].
Qed.

(** X12.  When no launch of a queued job is COMPLETED or FIZZLED,
    [acquire_complete] returns the empty mapping and changes nothing. *)
Theorem acquire_complete_idle self :
  (∀ l, l ∈ launches (client self) → is_Some (queue self !! fw_id l) →
        state l ≠ "COMPLETED" ∧ state l ≠ "FIZZLED") →
  acquire_complete self = (self, Ok ∅).
Proof. intros Hidle. by apply acquire_complete_nil, cursor_nil. Qed.

(** X13.  A job is handed out once: after an [acquire_complete] that
    returned, a second call on the same backend state returns the empty
    mapping and changes nothing. *)
Theorem acquire_complete_twice self ret :
  (acquire_complete self).2 = Ok ret →
  acquire_complete (acquire_complete self).1 = ((acquire_complete self).1, Ok ∅).
Proof.
  intros Hcall. apply acquire_complete_nil, cursor_nil.
  unfold acquire_complete in *.
  destruct (for_each (cursor self) collect (queue self, ∅))
    as [[q' ret'] [e|]] eqn:Hloop; simpl in *; [done|].
  apply collect_loop_queue in Hloop as ->.
  intros l Hin Hq. rewrite lookup_popped in Hq.
  case_bool_decide as Hpopped; [by destruct Hq|].
  destruct (decide (state l = "COMPLETED")) as [Hc|Hc];
    [|destruct (decide (state l = "FIZZLED")) as [Hf|Hf]]; [| |done].
  - destruct Hpopped. apply list_elem_of_fmap. exists l. split; [done|].
    apply cursor_elem; [done|done|by left].
  - destruct Hpopped. apply list_elem_of_fmap. exists l. split; [done|].
    apply cursor_elem; [done|done|by right].
Qed.

(** X14.  Whenever [acquire_complete] returns, the queue has only lost
    entries, the backend client is untouched, and every entry of the
    returned mapping carries, unchanged, the key, parser and hooks of an
    entry the queue held for an observed job. *)
Theorem acquire_complete_returns_queue_entries self ret :
  (acquire_complete self).2 = Ok ret →
  queue (acquire_complete self).1 ⊆ queue self ∧
  client (acquire_complete self).1 = client self ∧
  ∀ key blob p h, ret !! key = Some (blob, p, h) →
    ∃ job, queue self !! job = Some (key, p, h).
Proof.
  intros Hcall. unfold acquire_complete in *.
  destruct (collect_loop_origin (cursor self) (queue self) (queue self) ∅)
    as [Hsub Horigin]; [done|by intros key v; rewrite lookup_empty|].
  destruct (for_each (cursor self) collect (queue self, ∅))
    as [[q' ret'] [e|]]; simpl in *; [done|].
  injection Hcall as <-. split; [done|]. split; [done|].
  intros key blob p h Hkey. by apply (Horigin key (blob, p, h)).
Qed.

(** X15.  [close] returns true and resets the backend but keeps the queue:
    a following [acquire_complete] returns the empty mapping and leaves
    every queue entry in place; closing twice is closing once. *)
Theorem close_keeps_queue self :
  (close self).2 = Ok true ∧
  queue (close self).1 = queue self ∧
  acquire_complete (close self).1 = ((close self).1, Ok ∅) ∧
  close (close self).1 = close self.
Proof.
  split; [done|]. split; [done|]. split; [|done].
  apply acquire_complete_nil. by unfold cursor, launches_find.
Qed.

End FireworksExtras.

Section FireworksSubmit.
Import Fireworks.
Implicit Types (self : FireworksAdapter) (tasks : list task) (l : launch)
  (q : gmap Z (string * string * list string))
  (ret : gmap string (gmap string json * string * list string)).

(** The loop of [submit_tasks] from a consistent adapter: the [i]-th task
    is queued under the [i]-th id after the last one given out, the other
    entries stay, and the backend's workflows gain those ids. *)
Lemma submit_loop_entries tasks self (acc : list string) :
  consistent self →
  let out := for_each tasks submit_task (self, acc) in
  out.2 = None ∧
  consistent out.1.1 ∧
  next_fw_id (client out.1.1) = next_fw_id (client self) + Z.of_nat (length tasks) ∧
  launches (client out.1.1) = launches (client self) ∧
  (workflows (client out.1.1)).*1
    = (workflows (client self)).*1
      ++ seqZ (next_fw_id (client self)) (Z.of_nat (length tasks)) ∧
  size (queue out.1.1) = (size (queue self) + length tasks)%nat ∧
  (∀ (i : nat) t, tasks !! i = Some t →
     queue out.1.1 !! (next_fw_id (client self) + Z.of_nat i) = Some (entry_of t)) ∧
  (∀ job, job < next_fw_id (client self) ∨
          next_fw_id (client self) + Z.of_nat (length tasks) ≤ job →
          queue out.1.1 !! job = queue self !! job).
Proof.
  revert self acc. induction tasks as [|t tasks IH]; intros self acc Hcons.
  - simpl. rewrite app_nil_r. repeat split; try done; lia.
  - set (self1 := {| client := (add_wf (task_spec t) (client self)).2;
                     queue := <[next_fw_id (client self) := entry_of t]> (queue self) |}).
    assert (Hfree : queue self !! next_fw_id (client self) = None).
    { destruct (queue self !! next_fw_id (client self)) eqn:Hq; [|done].
      pose proof (Hcons (next_fw_id (client self)) ltac:(by eexists)). lia. }
    assert (Hcons1 : consistent self1).
    { intros job [e He]. unfold self1 in *. simpl in *.
      destruct (decide (job = next_fw_id (client self))) as [->|Hne]; [lia|].
      rewrite lookup_insert_ne in He by done.
      pose proof (Hcons job ltac:(by eexists)). lia. }
    destruct (IH self1 (acc ++ [id t]) Hcons1)
      as (Hnone & Hcons' & Hnext & Hlaunch & Hflows & Hsize & Hnew & Hold).
    change (for_each (t :: tasks) submit_task (self, acc))
      with (for_each tasks submit_task (self1, acc ++ [id t])).
    change (next_fw_id (client self1)) with (next_fw_id (client self) + 1) in *.
    change (launches (client self1)) with (launches (client self)) in *.
    change (workflows (client self1))
      with (workflows (client self) ++ [(next_fw_id (client self), task_spec t)]) in *.
    change (queue self1)
      with (<[next_fw_id (client self) := entry_of t]> (queue self)) in *.
    cbn [length].
    split; [done|]. split; [done|]. split; [lia|]. split; [done|].
    split; [|split; [|split]].
    + rewrite Hflows, fmap_app, <- app_assoc. f_equal.
      rewrite (seqZ_cons (next_fw_id (client self))) by lia.
      cbn [fmap list_fmap fst app]. repeat f_equal; lia.
    + rewrite Hsize, map_size_insert_None by done. lia.
    + intros [|i] t' Hi; simpl in Hi.
      * injection Hi as <-. rewrite Z.add_0_r.
        rewrite Hold by lia. by rewrite lookup_insert_eq.
      * replace (next_fw_id (client self) + Z.of_nat (S i))
          with (next_fw_id (client self) + 1 + Z.of_nat i) by lia.
        by apply Hnew.
    + intros job Hjob. rewrite Hold by lia. rewrite lookup_insert_ne; [done|lia].
Qed.

(** The loop of [acquire_complete] raises KeyError at a launch whose job is
    not, or no longer, in the queue. *)
Lemma collect_loop_missing (ls : list launch) q ret :
  Forall (λ l, is_Some (outcome l)) ls →
  (∃ l, l ∈ ls ∧ q !! fw_id l = None) →
  ∃ job, job ∈ fw_id <$> ls ∧
         (for_each ls collect (q, ret)).2 = Some (KeyError (pretty job)).
Proof.
  revert q ret. induction ls as [|l ls IH]; intros q ret Hwf (l' & Hl' & Hnone).
  - by apply elem_of_nil in Hl'.
  - apply Forall_cons in Hwf as [[b Hb] Hwf]. cbn [for_each].
    destruct (q !! fw_id l) as [[[key p] h]|] eqn:Hq.
    + rewrite (collect_step l q ret key p h b) by done.
      destruct (IH (delete (fw_id l) q) (<[key := (b, p, h)]> ret) Hwf)
        as (job & Hjob & Hraise).
      * apply elem_of_cons in Hl' as [->|Hl']; [congruence|].
        exists l'. split; [done|].
        destruct (decide (fw_id l' = fw_id l)) as [->|Hne].
        -- apply lookup_delete_eq.
        -- by rewrite lookup_delete_ne.
      * exists job. split; [by right|done].
    + exists (fw_id l). split; [left|]. unfold collect. by rewrite Hq.
Qed.

Lemma collect_loop_repeated (ls : list launch) q ret :
  Forall (λ l, is_Some (outcome l)) ls →
  ¬ NoDup (fw_id <$> ls) →
  ∃ job, job ∈ fw_id <$> ls ∧
         (for_each ls collect (q, ret)).2 = Some (KeyError (pretty job)).
Proof.
  revert q ret. induction ls as [|l ls IH]; intros q ret Hwf Hdup.
  - destruct Hdup. constructor.
  - destruct (q !! fw_id l) as [[[key p] h]|] eqn:Hq.
    + pose proof Hwf as Hwf0. apply Forall_cons in Hwf as [[b Hb] Hwf].
      cbn [for_each]. rewrite (collect_step l q ret key p h b) by done.
      destruct (decide (fw_id l ∈ fw_id <$> ls)) as [Hin|Hout].
      * apply list_elem_of_fmap in Hin as (l' & Heq & Hl').
        destruct (collect_loop_missing ls (delete (fw_id l) q)
                    (<[key := (b, p, h)]> ret) Hwf) as (job & Hjob & Hraise).
        { exists l'. split; [done|]. rewrite <- Heq. apply lookup_delete_eq. }
        exists job. split; [by right|done].
      * destruct (IH (delete (fw_id l) q) (<[key := (b, p, h)]> ret) Hwf)
          as (job & Hjob & Hraise).
        { intros Hnd. apply Hdup. simpl. by constructor. }
        exists job. split; [by right|done].
    + apply (collect_loop_missing (l :: ls) q ret Hwf).
      exists l. split; [left|done].
Qed.

(** X16.  From an adapter whose queued ids have all been given out by the
    backend, [submit_tasks] returns, drops or overwrites no queue entry,
    adds one entry per task of the batch, and leaves such an adapter. *)
Theorem submit_tasks_keeps_queue tasks self :
  consistent self →
  (submit_tasks tasks self).2 = Ok (id <$> tasks) ∧
  consistent (submit_tasks tasks self).1 ∧
  queue self ⊆ queue (submit_tasks tasks self).1 ∧
  size (queue (submit_tasks tasks self).1) = (size (queue self) + length tasks)%nat.
Proof.
  intros Hcons.
  destruct (submit_loop_entries tasks self [] Hcons)
    as (Hnone & Hcons' & _ & _ & _ & Hsize & _ & Hold).
  destruct (submit_loop tasks self []) as (self' & Hloop & _).
  unfold submit_tasks. rewrite Hloop in *. simpl in *.
  split; [done|]. split; [done|]. split; [|done].
  apply map_subseteq_spec. intros job e He.
  rewrite Hold; [done|]. left. apply Hcons. by eexists.
Qed.

(** X17.  When the backend reports two terminal launches for the same
    queued job (each carrying the data of its state), [acquire_complete]
    raises KeyError for a job id: the second [pop] finds the entry gone. *)
Theorem acquire_complete_repeated_job self :
  Forall (λ l, is_Some (outcome l)) (cursor self) →
  ¬ NoDup (fw_id <$> cursor self) →
  ∃ job, job ∈ fw_id <$> cursor self ∧
         (acquire_complete self).2 = Raise (KeyError (pretty job)).
Proof.
  intros Hwf Hdup.
  destruct (collect_loop_repeated (cursor self) (queue self) ∅ Hwf Hdup)
    as (job & Hjob & Hraise).
  exists job. split; [done|]. unfold acquire_complete.
  destruct (for_each (cursor self) collect (queue self, ∅))
    as [[q' ret'] [e|]]; simpl in *; [|done].
  by injection Hraise as ->.
Qed.

End FireworksSubmit.

Section FireworksRoundTrip.
Import Fireworks.
Implicit Types (self : FireworksAdapter) (tasks : list task) (l : launch).

Lemma filter_all {A : Type} (P : A → Prop) `{!∀ x, Decision (P x)} (xs : list A) :
  Forall P xs → filter P xs = xs.
Proof.
  induction 1 as [|x xs Hx _ IH]; [done|].
  rewrite filter_cons_True by done. by rewrite IH.
Qed.

(** The adapter [submit_tasks] leaves is the one its loop leaves. *)
Lemma submit_tasks_adapter tasks self :
  (submit_tasks tasks self).1 = (for_each tasks submit_task (self, [])).1.1.
Proof.
  unfold submit_tasks.
  by destruct (for_each tasks submit_task (self, [])) as [[self' ret] [e|]].
Qed.

(** X18.  Round trip through the backend.  When a batch of tasks with
    pairwise distinct ids is submitted to an adapter with an empty queue and
    a backend without workflows, and the backend runs every job to
    completion, [acquire_complete] empties the queue and returns one entry
    per task, under the task's id: the results of the task's job with the
    task's own parser and hooks. *)
Theorem submit_then_acquire tasks self (results : Z → gmap string json) :
  queue self = ∅ → workflows (client self) = [] → NoDup (id <$> tasks) →
  ∃ ret,
    acquire_complete (backend_completes results (submit_tasks tasks self).1)
    = ({| client := client (backend_completes results (submit_tasks tasks self).1);
          queue := ∅ |}, Ok ret) ∧
    size ret = length tasks ∧
    ∀ (i : nat) t, tasks !! i = Some t →
      ret !! id t
      = Some (results (next_fw_id (client self) + Z.of_nat i), parser t, hooks t).
Proof.
  intros Hempty Hflows Hids.
  assert (Hcons : consistent self).
  { intros job [e He]. by rewrite Hempty, lookup_empty in He. }
  destruct (submit_loop_entries tasks self [] Hcons)
    as (_ & _ & _ & _ & Hjobs & _ & Hnew & Hold).
  rewrite submit_tasks_adapter.
  set (self1 := (for_each tasks submit_task (self, [])).1.1) in *.
  set (n0 := next_fw_id (client self)) in *.
  rewrite Hflows in Hjobs. simpl in Hjobs.
  assert (Hjob : ∀ job, job ∈ seqZ n0 (Z.of_nat (length tasks)) →
            ∃ (i : nat) t, job = n0 + Z.of_nat i ∧ tasks !! i = Some t).
  { intros job [Hlo Hhi]%elem_of_seqZ.
    destruct (lookup_lt_is_Some_2 tasks (Z.to_nat (job - n0)) ltac:(lia)) as [t Ht].
    exists (Z.to_nat (job - n0)), t. split; [lia|done]. }
  assert (Hqueue : ∀ job, job ∉ seqZ n0 (Z.of_nat (length tasks)) →
            queue self1 !! job = None).
  { intros job Hout. rewrite Hold; [by rewrite Hempty, lookup_empty|].
    rewrite elem_of_seqZ in Hout. lia. }
  set (ls := completed_launch results <$> seqZ n0 (Z.of_nat (length tasks))).
  assert (Hfw : fw_id <$> ls = seqZ n0 (Z.of_nat (length tasks))).
  { unfold ls. rewrite <- list_fmap_compose. apply list_fmap_id. }
  assert (Hls : ∀ l, l ∈ ls →
            ∃ (i : nat) t, l = completed_launch results (n0 + Z.of_nat i) ∧
                           tasks !! i = Some t ∧
                           queue self1 !! fw_id l = Some (entry_of t)).
  { intros l (job & -> & Hin)%list_elem_of_fmap.
    destruct (Hjob job Hin) as (i & t & -> & Ht).
    exists i, t. split; [done|]. split; [done|]. by apply Hnew. }
  assert (Hcursor : cursor (backend_completes results self1) = ls).
  { unfold cursor, launches_find, backend_completes. simpl. rewrite Hjobs.
    apply filter_all. apply Forall_forall. intros l Hl.
    destruct (Hls l Hl) as (i & t & -> & Ht & Hq). split; [|left].
    apply list_elem_of_fmap. exists (n0 + Z.of_nat i, entry_of t).
    split; [done|]. by apply elem_of_map_to_list. }
  destruct (collect_loop ls (queue self1) ∅) as (ret & Hloop & Hsize & _ & Hret).
  - rewrite Hfw. apply NoDup_seqZ.
  - intros l Hl. destruct (Hls l Hl) as (i & t & -> & Ht & Hq).
    split; by eexists.
  - intros l1 l2 e1 e2 Hl1 Hl2 He1 He2 Hsame.
    destruct (Hls l1 Hl1) as (i1 & t1 & -> & Ht1 & Hq1).
    destruct (Hls l2 Hl2) as (i2 & t2 & -> & Ht2 & Hq2).
    rewrite Hq1 in He1. rewrite Hq2 in He2. simplify_eq/=.
    assert (i1 = i2) as ->; [|done].
    eapply (NoDup_lookup _ i1 i2 (id t1) Hids); rewrite list_lookup_fmap.
    + by rewrite Ht1.
    + rewrite Ht2. simpl. by rewrite Hsame.
  - intros l e _ _. apply lookup_empty.
  - exists ret. split; [|split].
    + unfold acquire_complete. rewrite Hcursor.
      change (queue (backend_completes results self1)) with (queue self1).
      rewrite Hloop. f_equal. f_equal. apply map_eq. intros job.
      rewrite lookup_popped, Hfw, lookup_empty.
      case_bool_decide as Hin; [done|]. by apply Hqueue.
    + rewrite Hsize, map_size_empty. unfold ls. rewrite length_fmap, length_seqZ. lia.
    + intros i t Ht.
      apply (Hret (completed_launch results (n0 + Z.of_nat i))); [| |done].
      * unfold ls. apply list_elem_of_fmap. exists (n0 + Z.of_nat i). split; [done|].
        apply elem_of_seqZ. apply lookup_lt_Some in Ht. lia.
      * by apply Hnew.
Qed.

End FireworksRoundTrip.

Lemma acquire_complete_idle_witness :
  Fireworks.acquire_complete MoreFireworksFixtures.waiting_adapter
  = (MoreFireworksFixtures.waiting_adapter, Ok ∅).
Proof.
  apply acquire_complete_idle. intros l Hl _.
  apply list_elem_of_singleton in Hl as ->. by split.
Defined.

Lemma acquire_complete_twice_witness :
  Fireworks.acquire_complete
    (Fireworks.acquire_complete FireworksFixtures.mixed_adapter).1
  = ((Fireworks.acquire_complete FireworksFixtures.mixed_adapter).1, Ok ∅).
Proof.
  eapply (acquire_complete_twice FireworksFixtures.mixed_adapter).
  vm_compute. reflexivity.
Defined.

Lemma acquire_complete_returns_queue_entries_witness :
  Fireworks.queue (Fireworks.acquire_complete FireworksFixtures.mixed_adapter).1
    ⊆ Fireworks.queue FireworksFixtures.mixed_adapter.
Proof.
  eapply (acquire_complete_returns_queue_entries FireworksFixtures.mixed_adapter).
  vm_compute. reflexivity.
Defined.

Lemma submit_tasks_keeps_queue_witness :
  Fireworks.queue FireworksFixtures.busy_adapter
    ⊆ Fireworks.queue
        (Fireworks.submit_tasks [FireworksFixtures.task_of "t2"]
           FireworksFixtures.busy_adapter).1.
Proof.
  apply (submit_tasks_keeps_queue [FireworksFixtures.task_of "t2"]
           FireworksFixtures.busy_adapter).
  intros job [e He]. unfold FireworksFixtures.busy_adapter in *. simpl in *.
  apply lookup_singleton_Some in He as [<- _]. lia.
Defined.

Lemma acquire_complete_repeated_job_witness :
  ∃ job,
    job ∈ Fireworks.fw_id <$> Fireworks.cursor MoreFireworksFixtures.relaunched_adapter ∧
    (Fireworks.acquire_complete MoreFireworksFixtures.relaunched_adapter).2
    = Raise (KeyError (pretty job)).
Proof.
  apply (acquire_complete_repeated_job MoreFireworksFixtures.relaunched_adapter).
  - apply (bool_decide_unpack _). vm_compute. exact I.
  - apply (bool_decide_unpack _). vm_compute. exact I.
Defined.

Lemma submit_then_acquire_witness :
  ∃ ret,
    Fireworks.acquire_complete
      (backend_completes (λ _, {[ "energy" := Fireworks.JNum 76 ]})
         (Fireworks.submit_tasks
            [FireworksFixtures.task_of "t1"; FireworksFixtures.task_of "t2"]
            MoreFireworksFixtures.idle_adapter).1)
    = ({| Fireworks.client :=
            Fireworks.client
              (backend_completes (λ _, {[ "energy" := Fireworks.JNum 76 ]})
                 (Fireworks.submit_tasks
                    [FireworksFixtures.task_of "t1"; FireworksFixtures.task_of "t2"]
                    MoreFireworksFixtures.idle_adapter).1);
          Fireworks.queue := ∅ |}, Ok ret) ∧
    size ret = 2%nat.
Proof.
  destruct (submit_then_acquire
              [FireworksFixtures.task_of "t1"; FireworksFixtures.task_of "t2"]
              MoreFireworksFixtures.idle_adapter
              (λ _, {[ "energy" := Fireworks.JNum 76 ]}))
    as (ret & Hcall & Hsize & _).
  - reflexivity.
  - reflexivity.
  - apply (bool_decide_unpack _). vm_compute. exact I.
  - exists ret. split; [exact Hcall|exact Hsize].
Defined.

(** ** Server start-up *)

(** X19.  The SSL block of [server_start] raises KeyError exactly when SSL
    is enabled and exactly one of the certificate and the key is given; with
    both given it passes the certificate on as [crt] and the key as [key],
    with neither it asks for autogenerated certificates, and with SSL
    disabled it ignores both. *)
Theorem examine_ssl_outcomes (disable_ssl : bool) (tls_key tls_cert : option string) :
  ((Server.examine_ssl disable_ssl tls_key tls_cert).2
     = Raise (KeyError "Both tls-cert and tls-key must be passed in.")
   ↔ disable_ssl = false ∧ (is_Some tls_key ↔ ¬ is_Some tls_cert)) ∧
  (∀ options, (Server.examine_ssl disable_ssl tls_key tls_cert).2 = Ok options →
     options =
       if disable_ssl then Server.SSL_off
       else match tls_cert, tls_key with
            | Some crt, Some key => Server.SSL_files (Some crt) (Some key)
            | _, _ => Server.SSL_autogenerated
            end).
Proof.
  rewrite !is_Some_alt.
  destruct disable_ssl, tls_key as [key|], tls_cert as [crt|]; cbn;
    (split; [intuition (discriminate || congruence)|]);
    intros options Hcall; by (injection Hcall as <-) || discriminate.
Qed.

(** ** TaskManager: [done] followed by [get_tasks] *)

Section DoneThenGetTasks.
Import TaskManager.
Context {W : Type} `{!StorageSocket W}.
Implicit Types (self : TaskManager) (w : W).

Lemma sum_list_le_length {A : Type} (f : A → nat) (l : list A) :
  (∀ x, x ∈ l → (f x ≤ 1)%nat) → (sum_list_with f l ≤ length l)%nat.
Proof.
  induction l as [|a l IH]; intros Hf; [done|]. cbn [sum_list_with length].
  pose proof (Hf a ltac:(left)) as Ha.
  assert (Hl : ∀ x, x ∈ l → (f x ≤ 1)%nat) by (intros x Hx; apply Hf; by right).
  specialize (IH Hl). lia.
Qed.

(** Summands that are at most one and add up to the number of summands are
    all one. *)
Lemma sum_list_all_one {A : Type} (f : A → nat) (l : list A) :
  (∀ x, x ∈ l → (f x ≤ 1)%nat) → (length l ≤ sum_list_with f l)%nat →
  ∀ x, x ∈ l → f x = 1%nat.
Proof.
  induction l as [|a l IH]; intros Hf Hsum x Hx.
  - by apply elem_of_nil in Hx.
  - cbn [sum_list_with length] in Hsum.
    pose proof (Hf a ltac:(left)) as Ha.
    assert (Hl : ∀ y, y ∈ l → (f y ≤ 1)%nat) by (intros y Hy; apply Hf; by right).
    pose proof (sum_list_le_length f l Hl) as Hle.
    apply elem_of_cons in Hx as [->|Hx]; [lia|].
    apply IH; [done|lia|done].
Qed.

(** X20.  Over a storage that holds at most one record per id and whose
    batch query returns no more records than the queries for the single ids
    together, a [done] that returned true is followed by a [get_tasks] that
    returns, with exactly the keys of [required_tasks]. *)
Theorem done_then_get_tasks self w :
  (∀ id, (length (get_procedures w [id]) ≤ 1)%nat) →
  (length (get_procedures w (required_ids self))
   ≤ sum_list_with (λ id, length (get_procedures w [id])) (required_ids self))%nat →
  (done self w).2 = Ok true →
  ∃ ret, (get_tasks self w).2 = Ok ret ∧ dom ret = dom (required_tasks self).
Proof.
  intros Hone Hbatch Hdone.
  assert (Hrec : ∀ k id, required_tasks self !! k = Some id →
                         is_Some (get_procedures w [id] !! 0%nat)).
  { intros k id Hk. apply done_true_iff in Hdone as [Hzero|[Hlen _]].
    - apply map_size_empty_inv in Hzero. by rewrite Hzero, lookup_empty in Hk.
    - assert (length (required_ids self) = size (required_tasks self)) as Hsize.
      { unfold required_ids. by rewrite length_fmap, length_map_to_list. }
      apply lookup_lt_is_Some.
      rewrite (sum_list_all_one (λ id, length (get_procedures w [id]))
                 (required_ids self)); [lia|by intros|lia|].
      unfold required_ids. apply list_elem_of_fmap. exists (k, id).
      split; [done|]. by apply elem_of_map_to_list. }
  unfold get_tasks.
  destruct (fetch_loop w (map_to_list (required_tasks self)) ∅ [])
    as (ret & Hloop & Hkeep & Hnew).
  - apply NoDup_fst_map_to_list.
  - intros k id Hin. apply (Hrec k id). by apply elem_of_map_to_list.
  - exists ret. rewrite Hloop. simpl. split; [done|].
    apply set_eq. intros k. rewrite !elem_of_dom. split.
    + intros Hk. destruct (required_tasks self !! k) as [id|] eqn:Hreq; [done|].
      rewrite Hkeep, lookup_empty in Hk; [done|].
      intros ([k' id] & -> & Hin)%list_elem_of_fmap.
      apply elem_of_map_to_list in Hin. simpl in Hreq. congruence.
    + intros [id Hk]. rewrite (Hnew k id) by by apply elem_of_map_to_list.
      by apply (Hrec k id).
Qed.

End DoneThenGetTasks.

Lemma done_then_get_tasks_witness :
  ∃ ret,
    (TaskManager.get_tasks Fixtures.one_task_round MoreFixtures.finished_store).2
      = Ok ret ∧
    dom ret = dom (TaskManager.required_tasks Fixtures.one_task_round).
Proof.
  apply (done_then_get_tasks Fixtures.one_task_round MoreFixtures.finished_store).
  - intros id. unfold TaskManager.get_procedures. simpl.
    rewrite filter_cons. case_decide; simpl; lia.
  - vm_compute. lia.
  - vm_compute. reflexivity.
Defined.
